(** * Gestor de memoria contigua (first-fit): modelo y verificación

    Shallow embedding of [src/Ejercicio.cpp]: the block list of class
    [Memoria], its three mutating operations ([cargarProceso],
    [liberarProceso], [compactarMemoriaFisica]), the private coalescing
    pass ([compactarEspaciosLibresAdyacentes]) and the query
    [calcularFragmentacionExterna].

    The methods return [void] and report on [cout]; the model returns the
    new state together with a tag naming the message that was printed.
    [mostrar] only writes to [cout] and does not appear here. *)

From stdpp Require Import base list strings pretty.
From Stdlib Require Import ZArith Lia Ascii.

Local Open Scope Z_scope.

(** ** Machine integers

    The fields are C++ [int]s.  Arithmetic is written with its 32-bit
    two's-complement wrap-around; the theorems on reachable states show
    that no operation ever leaves the range there. *)

Module Int.

Definition min_int : Z := - 2 ^ 31.
Definition max_int : Z := 2 ^ 31 - 1.

Definition en_rango (z : Z) : Prop := min_int ≤ z ≤ max_int.

Definition wrap (z : Z) : Z := (z + 2 ^ 31) `mod` 2 ^ 32 - 2 ^ 31.

Definition add (a b : Z) : Z := wrap (a + b).
Definition sub (a b : Z) : Z := wrap (a - b).

End Int.

(** ** Data model *)

Definition LIBRE_BLOCK_NAME : string := "Libre".
Definition DEFAULT_TOTAL_MEMORY : Z := 64.

Record Bloque : Type := mkBloque {
  nombre : string;
  inicio : Z;
  tamaño : Z
}.

Global Instance Bloque_eq_dec : EqDecision Bloque.
Proof. solve_decision. Defined.

Record Memoria : Type := mkMemoria {
  bloques : list Bloque;
  total_memoria : Z
}.

(** [b.nombre == LIBRE_BLOCK_NAME] *)
Definition es_libre (b : Bloque) : Prop := nombre b = LIBRE_BLOCK_NAME.

Global Instance es_libre_dec b : Decision (es_libre b).
Proof. unfold es_libre. apply _. Defined.

(** Constructor [Memoria(int size)]: a non-positive size is replaced by
    the default, and the list starts as one free block. *)
Definition Memoria_new (size : Z) : Memoria :=
  let total := if bool_decide (size ≤ 0) then DEFAULT_TOTAL_MEMORY else size in
  {| bloques := [mkBloque LIBRE_BLOCK_NAME 0 total]; total_memoria := total |}.

(** [std::vector::insert(it, x)] with [it] at index [i]: [x] is placed
    before the element at [i]. *)
Definition vector_insert {A} (i : nat) (x : A) (v : list A) : list A :=
  take i v ++ x :: drop i v.

(** ** cargarProceso *)

Inductive ResultadoCarga : Type :=
  | TamañoInvalido      (* "Error: Tamaño de proceso inválido" *)
  | NombreReservado     (* "Error: El nombre del proceso no puede ser 'Libre'" *)
  | Cargado             (* "Proceso ... cargado." *)
  | SinEspacio.         (* "No hay suficiente espacio libre contiguo ..." *)

(** The predicate of the first [find_if]. *)
Definition cabe (tam : Z) (b : Bloque) : Prop :=
  es_libre b ∧ tamaño b >= tam.

Global Instance cabe_dec tam b : Decision (cabe tam b).
Proof. unfold cabe. apply _. Defined.

Definition cargarProceso (nom : string) (tam : Z) (m : Memoria)
  : Memoria * ResultadoCarga :=
  if bool_decide (tam ≤ 0) then (m, TamañoInvalido)
  else if bool_decide (nom = LIBRE_BLOCK_NAME) then (m, NombreReservado)
  else
    match list_find (cabe tam) (bloques m) with
    | Some (it, b) =>
        if bool_decide (tamaño b = tam) then
          ({| bloques := <[it := mkBloque nom (inicio b) (tamaño b)]> (bloques m);
              total_memoria := total_memoria m |}, Cargado)
        else
          let nuevo_proceso := mkBloque nom (inicio b) tam in
          let resto := mkBloque (nombre b) (Int.add (inicio b) tam)
                                           (Int.sub (tamaño b) tam) in
          ({| bloques := vector_insert it nuevo_proceso (<[it := resto]> (bloques m));
              total_memoria := total_memoria m |}, Cargado)
    | None => (m, SinEspacio)
    end.

(** ** compactarEspaciosLibresAdyacentes

    [bloques_fusionados] is kept with its [back()] at the head, and is
    reversed when it is stored. *)

Definition fusionar_paso (fusionados : list Bloque) (actual : Bloque)
  : list Bloque :=
  match fusionados with
  | ultimo_fusionado :: antes =>
      if bool_decide (es_libre ultimo_fusionado ∧ es_libre actual) then
        mkBloque (nombre ultimo_fusionado) (inicio ultimo_fusionado)
                 (Int.add (tamaño ultimo_fusionado) (tamaño actual)) :: antes
      else actual :: fusionados
  | [] => [actual]
  end.

Definition compactarEspaciosLibresAdyacentes (bs : list Bloque) : list Bloque :=
  match bs with
  | [] => []
  | b0 :: resto => rev (fold_left fusionar_paso resto [b0])
  end.

(** ** liberarProceso *)

Inductive ResultadoLiberar : Type :=
  | NoSePuedeLiberarLibre  (* "Error: No se puede liberar un bloque 'Libre'" *)
  | Liberado               (* "Proceso ... liberado." *)
  | NoEncontrado.          (* "Proceso ... no encontrado." *)

Definition liberarProceso (nom : string) (m : Memoria)
  : Memoria * ResultadoLiberar :=
  if bool_decide (nom = LIBRE_BLOCK_NAME) then (m, NoSePuedeLiberarLibre)
  else
    match list_find (λ b, nombre b = nom) (bloques m) with
    | Some (it, b) =>
        let marcados :=
          <[it := mkBloque LIBRE_BLOCK_NAME (inicio b) (tamaño b)]> (bloques m) in
        ({| bloques := compactarEspaciosLibresAdyacentes marcados;
            total_memoria := total_memoria m |}, Liberado)
    | None => (m, NoEncontrado)
    end.

(** ** compactarMemoriaFisica

    Loop state: [(bloques_compactados, puntero_actual, espacio_libre_total)]. *)

Definition compactar_paso (st : list Bloque * Z * Z) (b : Bloque)
  : list Bloque * Z * Z :=
  let '(bloques_compactados, puntero_actual, espacio_libre_total) := st in
  if bool_decide (¬ es_libre b) then
    (bloques_compactados ++ [mkBloque (nombre b) puntero_actual (tamaño b)],
     Int.add puntero_actual (tamaño b), espacio_libre_total)
  else
    (bloques_compactados, puntero_actual, Int.add espacio_libre_total (tamaño b)).

Definition compactarMemoriaFisica (m : Memoria) : Memoria :=
  let '(bloques_compactados, puntero_actual, _) :=
    fold_left compactar_paso (bloques m) ([], 0, 0) in
  let final :=
    if bool_decide (puntero_actual < total_memoria m) then
      bloques_compactados ++
        [mkBloque LIBRE_BLOCK_NAME puntero_actual
                  (Int.sub (total_memoria m) puntero_actual)]
    else if bool_decide (bloques_compactados = [] ∧ total_memoria m > 0) then
      bloques_compactados ++ [mkBloque LIBRE_BLOCK_NAME 0 (total_memoria m)]
    else bloques_compactados in
  {| bloques := final; total_memoria := total_memoria m |}.

(** ** calcularFragmentacionExterna

    Returns the two numbers it prints: the sum of the free lengths
    ([std::accumulate]) and the number of free blocks of positive length
    ([std::count_if]). *)

Definition frag_externa (bs : list Bloque) : Z :=
  fold_left (λ sum b, if bool_decide (es_libre b) then Int.add sum (tamaño b) else sum)
            bs 0.

Definition num_bloques_libres (bs : list Bloque) : nat :=
  length (filter (λ b, es_libre b ∧ tamaño b > 0) bs).

Definition calcularFragmentacionExterna (m : Memoria) : Z * nat :=
  (frag_externa (bloques m), num_bloques_libres (bloques m)).

(** ** Runs of operations *)

Inductive Op : Type :=
  | OpCargar (nom : string) (tam : Z)
  | OpLiberar (nom : string)
  | OpCompactar.

Definition ejecutar (m : Memoria) (op : Op) : Memoria :=
  match op with
  | OpCargar nom tam => (cargarProceso nom tam m).1
  | OpLiberar nom => (liberarProceso nom m).1
  | OpCompactar => compactarMemoriaFisica m
  end.

Definition ejecutar_todas (m : Memoria) (ops : list Op) : Memoria :=
  fold_left ejecutar ops m.

(** A state is reachable when a run of operations produces it from a
    freshly constructed memory (the constructor's argument is an [int]). *)
Definition alcanzable (m : Memoria) : Prop :=
  ∃ size ops, Int.en_rango size ∧ m = ejecutar_todas (Memoria_new size) ops.

(** ** The invariants of the data model, as the specification words them *)

Section Invariantes.
Variable bs : list Bloque.
Variable capacidad : Z.

(** 1. consecutive blocks touch, in strictly increasing offset order *)
Definition inv_contiguo : Prop :=
  ∀ (i : nat) b c, bs !! i = Some b → bs !! S i = Some c →
    inicio c = inicio b + tamaño b ∧ inicio b < inicio c.

(** 2. the first block starts at 0 and the last one ends at the capacity *)
Definition inv_extremos : Prop :=
  (∃ b, head bs = Some b ∧ inicio b = 0) ∧
  (∃ b, last bs = Some b ∧ inicio b + tamaño b = capacidad).

(** 3. no two adjacent blocks are both free *)
Definition inv_sin_libres_adyacentes : Prop :=
  ∀ (i : nat) b c, bs !! i = Some b → bs !! S i = Some c →
    ¬ (es_libre b ∧ es_libre c).

(** 4. at most one block per owner other than the free sentinel *)
Definition inv_dueños_unicos : Prop :=
  ∀ (i j : nat) b c, bs !! i = Some b → bs !! j = Some c →
    ¬ es_libre b → nombre b = nombre c → i = j.

(** 5. every block has positive length *)
Definition inv_longitudes_positivas : Prop :=
  ∀ b, b ∈ bs → 0 < tamaño b.
End Invariantes.

(** ** The same invariants by recursion on the list, for the proofs *)

(** [cadena desde bs hasta]: the blocks of [bs] have positive lengths and
    tile [[desde, hasta)] in order. *)
Fixpoint cadena (desde : Z) (bs : list Bloque) (hasta : Z) : Prop :=
  match bs with
  | [] => desde = hasta
  | b :: resto =>
      inicio b = desde ∧ 0 < tamaño b ∧ cadena (desde + tamaño b) resto hasta
  end.

Fixpoint sin_adyacentes (bs : list Bloque) : Prop :=
  match bs with
  | b :: resto =>
      match resto with
      | c :: _ => ¬ (es_libre b ∧ es_libre c)
      | [] => True
      end ∧ sin_adyacentes resto
  | [] => True
  end.

Definition Inv (m : Memoria) : Prop :=
  0 < total_memoria m ≤ Int.max_int
  ∧ cadena 0 (bloques m) (total_memoria m)
  ∧ sin_adyacentes (bloques m).

(** Sum of the lengths, without wrap-around. *)
Definition suma (bs : list Bloque) : Z :=
  foldr (λ b s, tamaño b + s) 0 bs.

Definition ocupados (bs : list Bloque) : list Bloque :=
  filter (λ b, ¬ es_libre b) bs.

Definition libres (bs : list Bloque) : list Bloque :=
  filter es_libre bs.

(** ** The two loops by recursion on the blocks still to visit *)

(** [compactarEspaciosLibresAdyacentes]: [ult] is [bloques_fusionados.back()]
    and [resto] the blocks from [bloques[i]] on. *)
Fixpoint fusionar (ult : Bloque) (resto : list Bloque) : list Bloque :=
  match resto with
  | [] => [ult]
  | actual :: resto' =>
      if bool_decide (es_libre ult ∧ es_libre actual) then
        fusionar (mkBloque (nombre ult) (inicio ult)
                           (Int.add (tamaño ult) (tamaño actual))) resto'
      else ult :: fusionar actual resto'
  end.

(** [compactarMemoriaFisica]: the blocks pushed for the occupied blocks
    [bs] when the cursor is at [puntero], and the cursor after them. *)
Fixpoint colocar (puntero : Z) (bs : list Bloque) : list Bloque :=
  match bs with
  | [] => []
  | b :: resto =>
      mkBloque (nombre b) puntero (tamaño b)
        :: colocar (Int.add puntero (tamaño b)) resto
  end.

Fixpoint avanzar (puntero : Z) (bs : list Bloque) : Z :=
  match bs with
  | [] => puntero
  | b :: resto => avanzar (Int.add puntero (tamaño b)) resto
  end.

(** What [compactarMemoriaFisica] pushes after the loop. *)
Definition cola_libre (compactados : list Bloque) (puntero total : Z)
  : list Bloque :=
  if bool_decide (puntero < total) then
    [mkBloque LIBRE_BLOCK_NAME puntero (Int.sub total puntero)]
  else if bool_decide (compactados = [] ∧ total > 0) then
    [mkBloque LIBRE_BLOCK_NAME 0 total]
  else [].

(** ** Compaction as the specification describes it

    The occupied blocks are laid out from a cursor that advances by each
    placed length, in exact integer arithmetic. *)
Fixpoint recolocar (cursor : Z) (bs : list Bloque) : list Bloque :=
  match bs with
  | [] => []
  | b :: resto =>
      mkBloque (nombre b) cursor (tamaño b) :: recolocar (cursor + tamaño b) resto
  end.

(** [TotalFree()] and [FreeBlockCount()] are the two components of
    [calcularFragmentacionExterna]. *)
Definition TotalFree (m : Memoria) : Z := (calcularFragmentacionExterna m).1.
Definition FreeBlockCount (m : Memoria) : nat := (calcularFragmentacionExterna m).2.


(** Invariant 4 on the list of occupied blocks. *)
Definition dueños_unicos (bs : list Bloque) : Prop :=
  NoDup (nombre <$> ocupados bs).

(** A run never loads an owner that labels a block at the time of the call. *)
Fixpoint sin_repetir (m : Memoria) (ops : list Op) : Prop :=
  match ops with
  | [] => True
  | op :: ops' =>
      match op with
      | OpCargar nom _ => ∀ b, b ∈ bloques m → nombre b ≠ nom
      | _ => True
      end ∧ sin_repetir (ejecutar m op) ops'
  end.


(** ** Concrete runs used in the examples *)

Definition ops_ejemplo : list Op :=
  [OpCargar "A" 10; OpCargar "B" 20; OpLiberar "A"].

(** [[Libre 0 10; B 10 20; Libre 30 34]] *)
Definition mem_ejemplo : Memoria := ejecutar_todas (Memoria_new 64) ops_ejemplo.

(** [[A 0 10; B 10 20; Libre 30 34]] *)
Definition mem_AB : Memoria :=
  ejecutar_todas (Memoria_new 64) [OpCargar "A" 10; OpCargar "B" 20].

(** [[A 0 10; Libre 10 54]] *)
Definition mem_A : Memoria := ejecutar_todas (Memoria_new 64) [OpCargar "A" 10].

(** The blocks that carry a given owner. *)
Definition con_nombre (nom : string) (bs : list Bloque) : list Bloque :=
  filter (λ b, nombre b = nom) bs.


(** ** calcularFragmentacionInterna

    Returns the number it prints: one unit for every occupied block longer
    than the threshold of 5. *)
Definition calcularFragmentacionInterna (m : Memoria) : Z :=
  fold_left (λ frag_simulada b,
               if bool_decide (¬ es_libre b ∧ tamaño b > 5)
               then Int.add frag_simulada 1 else frag_simulada)
            (bloques m) 0.

(** The occupied blocks longer than the threshold. *)
Definition grandes (bs : list Bloque) : list Bloque :=
  filter (λ b, ¬ es_libre b ∧ tamaño b > 5) bs.


(** ** mostrar

    The text written on [cout], as a list of characters.  [vista_de] is the
    local [vista]: one character per unit of memory, a dot until an occupied
    block paints its units with [b.nombre[0]].  The result is [None] where
    the source has no defined behaviour: a negative size for the string, or
    a write at a negative index ([vista[pos_en_vista]] is only guarded from
    above). *)

Definition DISPLAY_BLOCKS_PER_LINE : Z := 16.

Definition salto : ascii := "010"%char.

(** [s[0]]; for an empty [std::string] this is the terminating null. *)
Definition primera_letra (s : string) : ascii :=
  match s with
  | String c _ => c
  | EmptyString => Ascii.zero
  end.

(** The inner loop [for (int i = 0; i < b.tamaño; ++i)], over the values
    that [i] takes. *)
Fixpoint pintar_bloque (total : Z) (b : Bloque) (indices : list Z)
    (vista : list ascii) : option (list ascii) :=
  match indices with
  | [] => Some vista
  | i :: indices' =>
      let pos_en_vista := Int.add (inicio b) i in
      if bool_decide (pos_en_vista < total) then
        if bool_decide (0 ≤ pos_en_vista) then
          pintar_bloque total b indices'
            (<[Z.to_nat pos_en_vista := primera_letra (nombre b)]> vista)
        else None
      else pintar_bloque total b indices' vista
  end.

(** The loop [for (const auto& b : bloques)]. *)
Fixpoint pintar_bloques (total : Z) (bs : list Bloque) (vista : list ascii)
  : option (list ascii) :=
  match bs with
  | [] => Some vista
  | b :: resto =>
      if bool_decide (¬ es_libre b) then
        match pintar_bloque total b (seqZ 0 (tamaño b)) vista with
        | Some vista' => pintar_bloques total resto vista'
        | None => None
        end
      else pintar_bloques total resto vista
  end.

Definition vista_de (m : Memoria) : option (list ascii) :=
  if bool_decide (0 ≤ total_memoria m) then
    pintar_bloques (total_memoria m) (bloques m)
      (replicate (Z.to_nat (total_memoria m)) "."%char)
  else None.

(** What one turn of the printing loop writes: the bar, the character of
    the unit and, at the end of a full line that is not the last, the
    closing bar and a line break. *)
Definition separador (total i : Z) : list ascii :=
  if bool_decide (Z.rem (Int.add i 1) DISPLAY_BLOCKS_PER_LINE = 0
                  ∧ Int.add i 1 < total)
  then ["|"%char; salto] else [].

(** The loop [for (int i = 0; i < total_memoria; ++i)], over the values
    that [i] takes. *)
Fixpoint celdas (total : Z) (vista : list ascii) (indices : list Z)
  : option (list ascii) :=
  match indices with
  | [] => Some []
  | i :: indices' =>
      match vista !! Z.to_nat i with
      | Some c =>
          match celdas total vista indices' with
          | Some resto => Some ("|"%char :: c :: separador total i ++ resto)
          | None => None
          end
      | None => None
      end
  end.

Definition cabecera (total : Z) : list ascii :=
  salto :: String.list_ascii_of_string
             ("Estado de la memoria (barra de " +:+ pretty total +:+ " MB):")
  ++ [salto].

Definition barra (total : Z) (vista : list ascii) : option (list ascii) :=
  match celdas total vista (seqZ 0 total) with
  | Some cs => Some (cs ++ ["|"%char; salto])
  | None => None
  end.

Definition mostrar (m : Memoria) : option (list ascii) :=
  match vista_de m with
  | Some vista =>
      match barra (total_memoria m) vista with
      | Some b => Some (cabecera (total_memoria m) ++ b)
      | None => None
      end
  | None => None
  end.

(** ** The display in closed form *)

(** The character that stands for a block. *)
Definition letra (b : Bloque) : ascii :=
  if bool_decide (es_libre b) then "."%char else primera_letra (nombre b).

(** The strip in closed form: every block, in order, as many times its
    character as it has units. *)
Definition pintado (bs : list Bloque) : list ascii :=
  flat_map (λ b, replicate (Z.to_nat (tamaño b)) (letra b)) bs.

(** One printed line: a bar before every character, a bar and a line break
    at the end. *)
Definition fila (cs : list ascii) : list ascii :=
  flat_map (λ c, ["|"%char; c]) cs ++ ["|"%char; salto].

(** [l] cut into pieces of [n] elements, the last one possibly shorter. *)
Fixpoint trozos_aux {A} (fuel n : nat) (l : list A) : list (list A) :=
  match fuel with
  | O => []
  | S fuel' =>
      match l with
      | [] => []
      | _ :: _ => take n l :: trozos_aux fuel' n (drop n l)
      end
  end.

Definition trozos {A} (n : nat) (l : list A) : list (list A) :=
  trozos_aux (length l) n l.


(** * Lemmas *)

(** *** Records *)

Lemma Bloque_eta b : mkBloque (nombre b) (inicio b) (tamaño b) = b.
Proof. by destruct b. Qed.

Lemma Memoria_ext (a b : Memoria) :
  bloques a = bloques b → total_memoria a = total_memoria b → a = b.
Proof. destruct a, b; simpl; congruence. Qed.

(** *** Machine integers *)

Lemma Int_wrap_id z : Int.en_rango z → Int.wrap z = z.
Proof.
  unfold Int.en_rango, Int.min_int, Int.max_int, Int.wrap. intros H.
  rewrite Z.mod_small; lia.
Qed.

Lemma Int_add_id a b : Int.en_rango (a + b) → Int.add a b = a + b.
Proof. apply Int_wrap_id. Qed.

Lemma Int_sub_id a b : Int.en_rango (a - b) → Int.sub a b = a - b.
Proof. apply Int_wrap_id. Qed.

(** Examples 4 and 5 of the specification. *)
Example ejemplo_carga :
  bloques (ejecutar_todas (Memoria_new 64) [OpCargar "A" 10; OpCargar "B" 20])
  = [mkBloque "A" 0 10; mkBloque "B" 10 20; mkBloque "Libre" 30 34].
Proof. vm_compute. reflexivity. Qed.

Example ejemplo_liberar_compactar :
  bloques (ejecutar_todas (Memoria_new 64)
             [OpCargar "A" 10; OpCargar "B" 20; OpLiberar "A"])
  = [mkBloque "Libre" 0 10; mkBloque "B" 10 20; mkBloque "Libre" 30 34]
  ∧ bloques (ejecutar_todas (Memoria_new 64)
             [OpCargar "A" 10; OpCargar "B" 20; OpLiberar "A"; OpCompactar])
  = [mkBloque "B" 0 20; mkBloque "Libre" 20 44].
Proof. vm_compute. split; reflexivity. Qed.

(** *** Chains *)

Lemma cadena_app d l1 l2 h :
  cadena d (l1 ++ l2) h ↔ ∃ k, cadena d l1 k ∧ cadena k l2 h.
Proof.
  revert d. induction l1 as [|b l1 IH]; intros d; simpl.
  - split; [eauto | intros (k & -> & ?); done].
  - rewrite IH. split.
    + intros (? & ? & k & ? & ?). eauto 6.
    + intros (k & (? & ? & ?) & ?). eauto 6.
Qed.

Lemma cadena_suma d l h : cadena d l h → h = d + suma l.
Proof.
  revert d. induction l as [|b l IH]; intros d; simpl.
  - lia.
  - intros (_ & _ & H). apply IH in H. lia.
Qed.

Lemma cadena_positiva d l h : cadena d l h → Forall (λ b, 0 < tamaño b) l.
Proof.
  revert d. induction l as [|b l IH]; intros d; simpl; [constructor|].
  intros (_ & ? & H). constructor; eauto.
Qed.

Lemma cadena_le d l h : cadena d l h → d ≤ h.
Proof.
  intros H. pose proof (cadena_suma _ _ _ H) as ->.
  apply cadena_positiva in H. clear -H.
  induction H; simpl; lia.
Qed.

Lemma suma_ocupados_libres l : suma l = suma (ocupados l) + suma (libres l).
Proof.
  unfold ocupados, libres. induction l as [|b l IH]; [done|].
  rewrite !filter_cons. destruct (decide (es_libre b)), (decide (¬ es_libre b));
    simpl; try lia; tauto.
Qed.

Lemma suma_nonneg l : Forall (λ b, 0 < tamaño b) l → 0 ≤ suma l.
Proof. induction 1; simpl; lia. Qed.

(** *** Adjacent free blocks *)

Lemma sin_adyacentes_app_cons pre b post :
  sin_adyacentes (pre ++ b :: post) ↔
  sin_adyacentes (pre ++ [b]) ∧ sin_adyacentes (b :: post).
Proof.
  induction pre as [|a pre IH]; simpl.
  - tauto.
  - destruct pre as [|a' pre]; simpl in *; tauto.
Qed.

Lemma sin_adyacentes_snoc_nombre pre b b' :
  (es_libre b' → es_libre b) →
  sin_adyacentes (pre ++ [b]) → sin_adyacentes (pre ++ [b']).
Proof.
  intros Hb. induction pre as [|a pre IH]; simpl; [done|].
  destruct pre as [|a' pre]; simpl in *; tauto.
Qed.

Lemma sin_adyacentes_cons_nombre b b' post :
  (es_libre b' → es_libre b) →
  sin_adyacentes (b :: post) → sin_adyacentes (b' :: post).
Proof. intros Hb. destruct post; simpl; tauto. Qed.

(** *** Iterators: a found position splits the vector *)

Lemma list_find_partir {A} (P : A → Prop) `{∀ x, Decision (P x)} l i b :
  list_find P l = Some (i, b) →
  ∃ pre post, l = pre ++ b :: post ∧ length pre = i ∧ P b
              ∧ Forall (λ x, ¬ P x) pre.
Proof.
  intros (Hi & HP & Hmin)%list_find_Some.
  exists (take i l), (drop (S i) l). split_and!.
  - by rewrite take_drop_middle.
  - apply length_take_le. apply lookup_lt_Some in Hi. lia.
  - done.
  - apply Forall_lookup. intros j x (Hj & ?)%lookup_take_Some. eauto.
Qed.

Lemma list_find_de_partir {A} (P : A → Prop) `{∀ x, Decision (P x)} pre b post :
  P b → Forall (λ x, ¬ P x) pre →
  list_find P (pre ++ b :: post) = Some (length pre, b).
Proof.
  intros HP Hpre. apply list_find_Some. split_and!.
  - by rewrite list_lookup_middle.
  - done.
  - intros j y Hj Hlt. rewrite lookup_app_l in Hj by done.
    rewrite Forall_lookup in Hpre. eauto.
Qed.

Lemma insert_en_medio {A} (pre : list A) b post x :
  <[length pre := x]> (pre ++ b :: post) = pre ++ x :: post.
Proof. by rewrite insert_app_r_alt, Nat.sub_diag by done. Qed.

Lemma vector_insert_en_medio {A} (pre : list A) b post x :
  vector_insert (length pre) x (pre ++ b :: post) = pre ++ x :: b :: post.
Proof.
  unfold vector_insert. by rewrite take_app_length, drop_app_length.
Qed.

(** *** cargarProceso, case by case *)

Lemma cargar_exacto nom tam m pre b post :
  0 < tam → nom ≠ LIBRE_BLOCK_NAME →
  bloques m = pre ++ b :: post → Forall (λ x, ¬ cabe tam x) pre →
  es_libre b → tamaño b = tam →
  cargarProceso nom tam m =
    ({| bloques := pre ++ mkBloque nom (inicio b) tam :: post;
        total_memoria := total_memoria m |}, Cargado).
Proof.
  intros Htam Hnom Hbs Hpre Hlib Heq. unfold cargarProceso.
  rewrite bool_decide_eq_false_2 by lia.
  rewrite bool_decide_eq_false_2 by done.
  rewrite Hbs, (list_find_de_partir (cabe tam) pre b post); [|split; [done|lia]|done].
  rewrite bool_decide_eq_true_2 by done.
  by rewrite insert_en_medio, Heq.
Qed.

Lemma cargar_parcial nom tam m pre b post :
  0 < tam → nom ≠ LIBRE_BLOCK_NAME →
  bloques m = pre ++ b :: post → Forall (λ x, ¬ cabe tam x) pre →
  es_libre b → tam < tamaño b →
  cargarProceso nom tam m =
    ({| bloques := pre ++ mkBloque nom (inicio b) tam
                       :: mkBloque LIBRE_BLOCK_NAME (Int.add (inicio b) tam)
                                   (Int.sub (tamaño b) tam) :: post;
        total_memoria := total_memoria m |}, Cargado).
Proof.
  intros Htam Hnom Hbs Hpre Hlib Hlt. unfold cargarProceso.
  rewrite bool_decide_eq_false_2 by lia.
  rewrite bool_decide_eq_false_2 by done.
  rewrite Hbs, (list_find_de_partir (cabe tam) pre b post); [|split; [done|lia]|done].
  rewrite bool_decide_eq_false_2 by lia.
  rewrite insert_en_medio, vector_insert_en_medio. by rewrite Hlib.
Qed.

Lemma cargar_sin_espacio nom tam m :
  0 < tam → nom ≠ LIBRE_BLOCK_NAME →
  Forall (λ x, ¬ cabe tam x) (bloques m) →
  cargarProceso nom tam m = (m, SinEspacio).
Proof.
  intros Htam Hnom Hno. unfold cargarProceso.
  rewrite bool_decide_eq_false_2 by lia.
  rewrite bool_decide_eq_false_2 by done.
  apply (list_find_None (cabe tam)) in Hno. by rewrite Hno.
Qed.

(** The four ways a call can go. *)
Lemma cargar_casos nom tam m :
  (cargarProceso nom tam m = (m, TamañoInvalido) ∧ tam ≤ 0)
  ∨ (cargarProceso nom tam m = (m, NombreReservado)
     ∧ 0 < tam ∧ nom = LIBRE_BLOCK_NAME)
  ∨ (cargarProceso nom tam m = (m, SinEspacio)
     ∧ 0 < tam ∧ nom ≠ LIBRE_BLOCK_NAME
     ∧ Forall (λ x, ¬ cabe tam x) (bloques m))
  ∨ (∃ pre b post,
       0 < tam ∧ nom ≠ LIBRE_BLOCK_NAME
       ∧ bloques m = pre ++ b :: post ∧ Forall (λ x, ¬ cabe tam x) pre
       ∧ es_libre b ∧ tam ≤ tamaño b).
Proof.
  destruct (decide (tam ≤ 0)) as [?|Htam].
  { left. unfold cargarProceso. by rewrite bool_decide_eq_true_2. }
  destruct (decide (nom = LIBRE_BLOCK_NAME)) as [?|Hnom].
  { right; left. unfold cargarProceso.
    rewrite bool_decide_eq_false_2 by done.
    rewrite bool_decide_eq_true_2 by done. split_and!; [done|lia|done]. }
  destruct (list_find (cabe tam) (bloques m)) as [[i b]|] eqn:Hf.
  - do 3 right. apply list_find_partir in Hf as (pre & post & ? & _ & [? ?] & ?).
    exists pre, b, post. split_and!; try done; lia.
  - right; right; left. apply list_find_None in Hf.
    split_and!; [|lia|done..]. apply cargar_sin_espacio; [lia|done..].
Qed.

(** In a state that satisfies the invariants, a found free block lies
    inside [[0, total_memoria)], so splitting it never wraps. *)
Lemma Inv_bloque_en_rango m pre b post :
  Inv m → bloques m = pre ++ b :: post →
  ∃ k, cadena 0 pre k ∧ 0 ≤ k ∧ inicio b = k ∧ 0 < tamaño b
       ∧ cadena (k + tamaño b) post (total_memoria m)
       ∧ k + tamaño b ≤ total_memoria m ∧ total_memoria m ≤ Int.max_int.
Proof.
  intros (Htot & Hcad & _) Hbs. rewrite Hbs in Hcad.
  apply cadena_app in Hcad as (k & Hpre & Hb & Hpos & Hpost).
  exists k. split_and!; try done.
  - by apply cadena_le in Hpre.
  - by apply cadena_le in Hpost.
  - lia.
Qed.

Lemma cargar_parcial_Inv nom tam m pre b post :
  Inv m → 0 < tam → nom ≠ LIBRE_BLOCK_NAME →
  bloques m = pre ++ b :: post → Forall (λ x, ¬ cabe tam x) pre →
  es_libre b → tam < tamaño b →
  cargarProceso nom tam m =
    ({| bloques := pre ++ mkBloque nom (inicio b) tam
                       :: mkBloque LIBRE_BLOCK_NAME (inicio b + tam)
                                   (tamaño b - tam) :: post;
        total_memoria := total_memoria m |}, Cargado).
Proof.
  intros HI Htam Hnom Hbs Hpre Hlib Hlt.
  rewrite (cargar_parcial nom tam m pre b post) by done.
  destruct (Inv_bloque_en_rango m pre b post HI Hbs)
    as (k & _ & ? & ? & ? & _ & ? & ?).
  rewrite Int_add_id, Int_sub_id; [done|..];
    unfold Int.en_rango, Int.min_int, Int.max_int in *; lia.
Qed.

Lemma cargar_Inv nom tam m : Inv m → Inv (cargarProceso nom tam m).1.
Proof.
  intros HI.
  destruct (cargar_casos nom tam m)
    as [[-> _]|[[-> _]|[[-> _]|(pre & b & post & Ht & Hn & Hbs & Hpre & Hl & Hle)]]];
    try done.
  destruct (Inv_bloque_en_rango m pre b post HI Hbs)
    as (k & Hck & ? & Hin & ? & Hcp & ? & ?).
  pose proof HI as (Htot & _ & Hsin). rewrite Hbs in Hsin.
  apply sin_adyacentes_app_cons in Hsin as [Hs1 Hs2].
  destruct (decide (tamaño b = tam)) as [Heq|Hne].
  - rewrite (cargar_exacto nom tam m pre b post) by done.
    split_and!; simpl; [lia..| |].
    + apply cadena_app. exists k. simpl. rewrite <- Heq. by split_and!.
    + apply sin_adyacentes_app_cons. split.
      * eapply sin_adyacentes_snoc_nombre; [|done]. unfold es_libre; simpl. done.
      * eapply sin_adyacentes_cons_nombre; [|done]. unfold es_libre; simpl. done.
  - rewrite (cargar_parcial_Inv nom tam m pre b post) by (done || lia).
    split_and!; simpl; [lia..| |].
    + apply cadena_app. exists k. simpl. split_and!; try done; try lia.
      replace (k + tam + (tamaño b - tam)) with (k + tamaño b) by lia. done.
    + apply sin_adyacentes_app_cons. split.
      * eapply sin_adyacentes_snoc_nombre; [|done]. unfold es_libre; simpl. done.
      * simpl. split; [unfold es_libre; simpl; tauto|].
        eapply sin_adyacentes_cons_nombre; [|done]. done.
Qed.

(** *** compactarEspaciosLibresAdyacentes *)

Lemma fusionar_fold resto ult acc :
  fold_left fusionar_paso resto (ult :: acc) = rev (fusionar ult resto) ++ acc.
Proof.
  revert ult acc. induction resto as [|a r IH]; intros ult acc; simpl; [done|].
  destruct (bool_decide (es_libre ult ∧ es_libre a)).
  - apply IH.
  - rewrite IH. simpl. by rewrite <- app_assoc.
Qed.

Lemma coalescer_fusionar b0 resto :
  compactarEspaciosLibresAdyacentes (b0 :: resto) = fusionar b0 resto.
Proof.
  unfold compactarEspaciosLibresAdyacentes.
  by rewrite fusionar_fold, app_nil_r, rev_involutive.
Qed.

Lemma fusionar_cabeza ult resto :
  ∃ u' l', fusionar ult resto = u' :: l'
           ∧ nombre u' = nombre ult ∧ inicio u' = inicio ult.
Proof.
  revert ult. induction resto as [|a r IH]; intros ult; simpl; [eauto|].
  destruct (bool_decide (es_libre ult ∧ es_libre a)); [|eauto].
  destruct (IH (mkBloque (nombre ult) (inicio ult)
                         (Int.add (tamaño ult) (tamaño a))))
    as (u' & l' & -> & ? & ?). eauto.
Qed.

Lemma fusionar_sin_adyacentes ult resto : sin_adyacentes (fusionar ult resto).
Proof.
  revert ult. induction resto as [|a r IH]; intros ult; simpl; [done|].
  destruct (bool_decide (es_libre ult ∧ es_libre a)) eqn:Hd; [apply IH|].
  apply bool_decide_eq_false in Hd.
  destruct (fusionar_cabeza a r) as (a' & l' & Heq & Hn & _).
  specialize (IH a). rewrite Heq in *. simpl. split; [|done].
  unfold es_libre in *. rewrite Hn. done.
Qed.

Lemma coalescer_sin_adyacentes bs :
  sin_adyacentes (compactarEspaciosLibresAdyacentes bs).
Proof.
  destruct bs as [|b0 resto]; [done|].
  rewrite coalescer_fusionar. apply fusionar_sin_adyacentes.
Qed.

Lemma fusionar_cadena d ult resto h :
  0 ≤ d → h ≤ Int.max_int →
  cadena d (ult :: resto) h → cadena d (fusionar ult resto) h.
Proof.
  intros Hd Hh. revert d ult Hd.
  induction resto as [|a r IH]; intros d ult Hd; [done|].
  intros (Hi & Hp & Hi' & Hp' & Hc). simpl.
  pose proof (cadena_le _ _ _ Hc).
  destruct (bool_decide (es_libre ult ∧ es_libre a)).
  - apply IH; [done|]. simpl.
    rewrite Int_add_id
      by (unfold Int.en_rango, Int.min_int, Int.max_int in *; lia).
    split_and!; [done|lia|]. by rewrite Z.add_assoc.
  - split_and!; [done..|]. apply IH; [lia|]. simpl. done.
Qed.

(** With no two adjacent free blocks there is nothing to merge. *)
Lemma fusionar_id ult resto :
  sin_adyacentes (ult :: resto) → fusionar ult resto = ult :: resto.
Proof.
  revert ult. induction resto as [|a r IH]; intros ult; [done|].
  intros [Hn Hs]. simpl. rewrite bool_decide_eq_false_2 by done.
  by rewrite IH.
Qed.

(** *** liberarProceso, case by case *)

Lemma liberar_encontrado nom m pre b post :
  nom ≠ LIBRE_BLOCK_NAME →
  bloques m = pre ++ b :: post → Forall (λ x, nombre x ≠ nom) pre →
  nombre b = nom →
  liberarProceso nom m =
    ({| bloques := compactarEspaciosLibresAdyacentes
                     (pre ++ mkBloque LIBRE_BLOCK_NAME (inicio b) (tamaño b) :: post);
        total_memoria := total_memoria m |}, Liberado).
Proof.
  intros Hnom Hbs Hpre Hb. unfold liberarProceso.
  rewrite bool_decide_eq_false_2 by done.
  rewrite Hbs, (list_find_de_partir (λ x, nombre x = nom) pre b post) by done.
  by rewrite insert_en_medio.
Qed.

Lemma liberar_casos nom m :
  (liberarProceso nom m = (m, NoSePuedeLiberarLibre) ∧ nom = LIBRE_BLOCK_NAME)
  ∨ (liberarProceso nom m = (m, NoEncontrado) ∧ nom ≠ LIBRE_BLOCK_NAME
     ∧ Forall (λ x, nombre x ≠ nom) (bloques m))
  ∨ (∃ pre b post,
       nom ≠ LIBRE_BLOCK_NAME ∧ bloques m = pre ++ b :: post
       ∧ Forall (λ x, nombre x ≠ nom) pre ∧ nombre b = nom).
Proof.
  destruct (decide (nom = LIBRE_BLOCK_NAME)) as [?|Hnom].
  { left. unfold liberarProceso. by rewrite bool_decide_eq_true_2. }
  destruct (list_find (λ x, nombre x = nom) (bloques m)) as [[i b]|] eqn:Hf.
  - do 2 right. apply list_find_partir in Hf as (pre & post & ? & _ & ? & ?).
    exists pre, b, post. done.
  - right; left. unfold liberarProceso.
    rewrite bool_decide_eq_false_2 by done. rewrite Hf.
    apply list_find_None in Hf. done.
Qed.

Lemma liberar_Inv nom m : Inv m → Inv (liberarProceso nom m).1.
Proof.
  intros HI.
  destruct (liberar_casos nom m)
    as [[-> _]|[(-> & _)|(pre & b & post & Hn & Hbs & Hpre & Hb)]]; try done.
  rewrite (liberar_encontrado nom m pre b post) by done.
  destruct (Inv_bloque_en_rango m pre b post HI Hbs)
    as (k & Hck & ? & Hin & ? & Hcp & ? & ?).
  destruct HI as (Htot & _ & _).
  unfold Inv. cbn [fst bloques total_memoria].
  split_and!; [lia..| |apply coalescer_sin_adyacentes].
  assert (cadena 0 (pre ++ mkBloque LIBRE_BLOCK_NAME (inicio b) (tamaño b) :: post)
            (total_memoria m)) as Hc.
  { apply cadena_app. exists k. simpl. done. }
  remember (pre ++ mkBloque LIBRE_BLOCK_NAME (inicio b) (tamaño b) :: post)
    as marcados eqn:E.
  destruct marcados as [|b0 resto]; [by destruct pre|].
  rewrite coalescer_fusionar. apply fusionar_cadena; [done|lia|done].
Qed.

(** *** compactarMemoriaFisica *)

Lemma compactar_fold bs acc p e :
  ∃ e', fold_left compactar_paso bs (acc, p, e)
        = (acc ++ colocar p (ocupados bs), avanzar p (ocupados bs), e').
Proof.
  unfold ocupados. revert acc p e.
  induction bs as [|b bs IH]; intros acc p e; simpl.
  - exists e. by rewrite app_nil_r.
  - rewrite filter_cons. destruct (decide (¬ es_libre b)) as [Hb|Hb].
    + rewrite bool_decide_eq_true_2 by done.
      destruct (IH (acc ++ [mkBloque (nombre b) p (tamaño b)])
                   (Int.add p (tamaño b)) e) as [e' ->].
      exists e'. simpl. by rewrite <- app_assoc.
    + rewrite bool_decide_eq_false_2 by done. apply IH.
Qed.

Lemma compactar_bloques m :
  bloques (compactarMemoriaFisica m) =
    colocar 0 (ocupados (bloques m))
    ++ cola_libre (colocar 0 (ocupados (bloques m)))
                  (avanzar 0 (ocupados (bloques m))) (total_memoria m).
Proof.
  unfold compactarMemoriaFisica, cola_libre.
  destruct (compactar_fold (bloques m) [] 0 0) as [e' ->]. simpl.
  repeat case_bool_decide; simpl; by rewrite ?app_nil_r.
Qed.

Lemma compactar_total m :
  total_memoria (compactarMemoriaFisica m) = total_memoria m.
Proof.
  unfold compactarMemoriaFisica.
  by destruct (fold_left _ _ _) as [[? ?] ?].
Qed.

Lemma colocar_nombres p bs : nombre <$> colocar p bs = nombre <$> bs.
Proof. revert p. induction bs as [|b bs IH]; intros p; simpl; [done|]. by rewrite IH. Qed.

Lemma colocar_tamaños p bs : tamaño <$> colocar p bs = tamaño <$> bs.
Proof. revert p. induction bs as [|b bs IH]; intros p; simpl; [done|]. by rewrite IH. Qed.

Lemma colocar_ocupados p bs :
  Forall (λ b, ¬ es_libre b) bs → ocupados (colocar p bs) = colocar p bs.
Proof.
  unfold ocupados. intros H. revert p.
  induction H as [|b bs Hb _ IH]; intros p; simpl; [done|].
  rewrite filter_cons_True by done. by rewrite IH.
Qed.

Lemma ocupados_Forall bs : Forall (λ b, ¬ es_libre b) (ocupados bs).
Proof.
  unfold ocupados. apply Forall_forall. by intros b [? _]%list_elem_of_filter.
Qed.

Lemma ocupados_app l1 l2 : ocupados (l1 ++ l2) = ocupados l1 ++ ocupados l2.
Proof. apply filter_app. Qed.

(** Laying out again what was laid out from the same cursor changes nothing. *)
Lemma colocar_colocar p bs : colocar p (colocar p bs) = colocar p bs.
Proof. revert p. induction bs as [|b bs IH]; intros p; simpl; [done|]. by rewrite IH. Qed.

Lemma avanzar_colocar p bs : avanzar p (colocar p bs) = avanzar p bs.
Proof. revert p. induction bs as [|b bs IH]; intros p; simpl; [done|]. by rewrite IH. Qed.

(** Within the range of [int] the cursor is the exact sum. *)
Lemma colocar_exacto p bs :
  0 ≤ p → Forall (λ b, 0 < tamaño b) bs → p + suma bs ≤ Int.max_int →
  colocar p bs = recolocar p bs ∧ avanzar p bs = p + suma bs.
Proof.
  intros Hp Hpos. revert p Hp.
  induction Hpos as [|b bs Hb Hbs IH]; intros p Hp Hmax; simpl in *.
  - split; [done|lia].
  - pose proof (suma_nonneg _ Hbs).
    rewrite Int_add_id
      by (unfold Int.en_rango, Int.min_int, Int.max_int in *; lia).
    destruct (IH (p + tamaño b)) as [-> ->]; [lia..|]. split; [done|lia].
Qed.

Lemma recolocar_cadena p bs :
  Forall (λ b, 0 < tamaño b) bs → cadena p (recolocar p bs) (p + suma bs).
Proof.
  intros Hpos. revert p.
  induction Hpos as [|b bs Hb Hbs IH]; intros p; simpl; [lia|].
  split_and!; [done..|]. rewrite Z.add_assoc. apply IH.
Qed.

Lemma recolocar_ocupados p bs :
  Forall (λ b, ¬ es_libre b) bs → Forall (λ b, ¬ es_libre b) (recolocar p bs).
Proof.
  intros H. revert p. induction H; intros p; simpl; constructor; eauto.
Qed.

Lemma sin_adyacentes_ocupados bs cola :
  Forall (λ b, ¬ es_libre b) bs → (length cola ≤ 1)%nat →
  sin_adyacentes (bs ++ cola).
Proof.
  intros H Hc. induction H as [|b bs Hb _ IH]; simpl.
  - destruct cola as [|? [|? ?]]; simpl in *; [done..|lia].
  - split; [|done]. destruct (bs ++ cola); [done|tauto].
Qed.

Lemma Forall_positiva_filter (P : Bloque → Prop) `{∀ x, Decision (P x)} bs :
  Forall (λ b, 0 < tamaño b) bs → Forall (λ b, 0 < tamaño b) (filter P bs).
Proof.
  rewrite !Forall_forall. intros Hall b [_ ?]%list_elem_of_filter. auto.
Qed.

(** What the compaction yields in a state that satisfies the invariants. *)
Lemma compactar_Inv_bloques m :
  Inv m →
  let occ := ocupados (bloques m) in
  suma occ ≤ total_memoria m
  ∧ Forall (λ b, 0 < tamaño b) occ
  ∧ bloques (compactarMemoriaFisica m) =
      recolocar 0 occ ++
      (if bool_decide (suma occ < total_memoria m)
       then [mkBloque LIBRE_BLOCK_NAME (suma occ) (total_memoria m - suma occ)]
       else []).
Proof.
  intros (Htot & Hcad & _) occ.
  pose proof (cadena_positiva _ _ _ Hcad) as Hpos.
  pose proof (cadena_suma _ _ _ Hcad) as Hsum.
  rewrite (suma_ocupados_libres (bloques m)) in Hsum. fold occ in Hsum.
  assert (Forall (λ b, 0 < tamaño b) occ) as Hpocc
    by (by apply Forall_positiva_filter).
  assert (0 ≤ suma (libres (bloques m))) as Hlib
    by (apply suma_nonneg; by apply Forall_positiva_filter).
  assert (0 ≤ suma occ) by (by apply suma_nonneg).
  split_and!; [lia|done|].
  rewrite compactar_bloques. fold occ.
  destruct (colocar_exacto 0 occ) as [-> ->]; [lia|done|lia|].
  rewrite Z.add_0_l. f_equal. unfold cola_libre.
  case_bool_decide as Hlt.
  - rewrite Int_sub_id; [done|].
    unfold Int.en_rango, Int.min_int, Int.max_int in *; lia.
  - case_bool_decide as Hv; [|done]. exfalso.
    destruct Hv as [Hv _]. destruct occ; simpl in *; [lia|done].
Qed.

Lemma compactar_Inv m : Inv m → Inv (compactarMemoriaFisica m).
Proof.
  intros HI. destruct (compactar_Inv_bloques m HI) as (Hle & Hpos & Hbs).
  destruct HI as (Htot & _ & _).
  unfold Inv. rewrite compactar_total, Hbs. split_and!; [lia..| |].
  - apply cadena_app. exists (suma (ocupados (bloques m))). split.
    + pose proof (recolocar_cadena 0 _ Hpos) as Hc. by rewrite Z.add_0_l in Hc.
    + case_bool_decide; simpl; lia.
  - apply sin_adyacentes_ocupados.
    + apply recolocar_ocupados, ocupados_Forall.
    + case_bool_decide; simpl; lia.
Qed.

(** *** Reachable states satisfy the invariants *)

Lemma Memoria_new_Inv size : Int.en_rango size → Inv (Memoria_new size).
Proof.
  unfold Int.en_rango, Int.min_int, Inv, Memoria_new, DEFAULT_TOTAL_MEMORY.
  intros Hr. case_bool_decide; simpl; unfold Int.max_int in *; lia.
Qed.

Lemma ejecutar_Inv m op : Inv m → Inv (ejecutar m op).
Proof.
  destruct op; simpl; auto using cargar_Inv, liberar_Inv, compactar_Inv.
Qed.

Lemma ejecutar_todas_Inv m ops : Inv m → Inv (ejecutar_todas m ops).
Proof.
  unfold ejecutar_todas. revert m.
  induction ops as [|op ops IH]; intros m HI; simpl; [done|].
  apply IH, ejecutar_Inv, HI.
Qed.

Lemma alcanzable_Inv m : alcanzable m → Inv m.
Proof.
  intros (size & ops & Hr & ->). by apply ejecutar_todas_Inv, Memoria_new_Inv.
Qed.

Lemma alcanzable_ejecutar m op : alcanzable m → alcanzable (ejecutar m op).
Proof.
  intros (size & ops & Hr & ->). exists size, (ops ++ [op]).
  split; [done|]. unfold ejecutar_todas. by rewrite fold_left_app.
Qed.

(** *** From the recursive invariants to the specification's wording *)

Lemma cadena_inv_contiguo d bs h : cadena d bs h → inv_contiguo bs.
Proof.
  unfold inv_contiguo. revert d.
  induction bs as [|a r IH]; intros d Hc i b c Hb Hc'; [done|].
  destruct Hc as (Ha & Hp & Hr). destruct i as [|i]; simpl in *.
  - simplify_eq. destruct r as [|c' r]; simplify_eq/=.
    destruct Hr as (-> & _). lia.
  - eauto.
Qed.

Lemma cadena_inv_extremos bs h : 0 < h → cadena 0 bs h → inv_extremos bs h.
Proof.
  intros Hh Hc. split.
  - destruct bs as [|a r]; simpl in *; [lia|]. exists a. split; [done|]. by destruct Hc.
  - destruct (last bs) as [b|] eqn:Hl.
    + exists b. split; [done|]. apply last_Some in Hl as [l' ->].
      apply cadena_app in Hc as (k & _ & Hb). simpl in Hb. lia.
    + apply last_None in Hl as ->. simpl in Hc. lia.
Qed.

Lemma sin_adyacentes_inv bs : sin_adyacentes bs → inv_sin_libres_adyacentes bs.
Proof.
  unfold inv_sin_libres_adyacentes.
  induction bs as [|a r IH]; intros Hs i b c Hb Hc; [done|].
  destruct Hs as [Ha Hr]. destruct i as [|i]; simpl in *.
  - simplify_eq. destruct r as [|c' r]; simplify_eq/=. done.
  - eauto.
Qed.

Lemma cadena_inv_longitudes d bs h : cadena d bs h → inv_longitudes_positivas bs.
Proof.
  intros Hc%cadena_positiva b Hb. rewrite Forall_forall in Hc. auto.
Qed.

Lemma ocupados_nombre bs b :
  b ∈ bs → ¬ es_libre b → nombre b ∈ nombre <$> ocupados bs.
Proof.
  intros Hb Hn. apply list_elem_of_fmap. exists b. split; [done|].
  unfold ocupados. by apply list_elem_of_filter.
Qed.

Lemma dueños_unicos_inv bs : dueños_unicos bs → inv_dueños_unicos bs.
Proof.
  unfold dueños_unicos, inv_dueños_unicos, ocupados.
  induction bs as [|a r IH]; intros Hnd i j b c Hb Hc Hlib Heq; [done|].
  rewrite filter_cons in Hnd.
  assert (¬ es_libre c) as Hlibc by (unfold es_libre in *; congruence).
  destruct (decide (¬ es_libre a)) as [Ha|Ha].
  - rewrite fmap_cons in Hnd. apply NoDup_cons in Hnd as [Hnotin Hnd].
    destruct i as [|i], j as [|j]; simplify_eq/=; [done| | |f_equal; eauto].
    + exfalso. apply Hnotin. rewrite Heq.
      apply ocupados_nombre; [by eapply list_elem_of_lookup_2|done].
    + exfalso. apply Hnotin. rewrite <- Heq.
      apply ocupados_nombre; [by eapply list_elem_of_lookup_2|done].
  - destruct i as [|i], j as [|j]; simplify_eq/=; [done..|f_equal; eauto].
Qed.

Lemma Inv_spec m :
  Inv m →
  inv_contiguo (bloques m) ∧ inv_extremos (bloques m) (total_memoria m)
  ∧ inv_sin_libres_adyacentes (bloques m) ∧ inv_longitudes_positivas (bloques m).
Proof.
  intros ([? ?] & Hc & Hs). split_and!.
  - by eapply cadena_inv_contiguo.
  - by apply cadena_inv_extremos.
  - by apply sin_adyacentes_inv.
  - by eapply cadena_inv_longitudes.
Qed.

(** *** The occupied blocks under each operation *)

Lemma fusionar_ocupados ult resto :
  ocupados (fusionar ult resto) = ocupados (ult :: resto).
Proof.
  unfold ocupados. revert ult.
  induction resto as [|a r IH]; intros ult; simpl; [done|].
  case_bool_decide as Hd.
  - destruct Hd as [Hu Ha]. rewrite IH.
    rewrite !filter_cons_False; [done|tauto..].
  - rewrite filter_cons, IH. by rewrite (filter_cons _ ult).
Qed.

Lemma coalescer_ocupados bs :
  ocupados (compactarEspaciosLibresAdyacentes bs) = ocupados bs.
Proof.
  destruct bs as [|b0 resto]; [done|].
  rewrite coalescer_fusionar. apply fusionar_ocupados.
Qed.

Lemma ocupados_medio_libre pre b post :
  es_libre b → ocupados (pre ++ b :: post) = ocupados pre ++ ocupados post.
Proof.
  intros Hb. unfold ocupados. rewrite filter_app, filter_cons_False; [done|tauto].
Qed.

Lemma ocupados_medio_ocupado pre b post :
  ¬ es_libre b → ocupados (pre ++ b :: post) = ocupados pre ++ b :: ocupados post.
Proof.
  intros Hb. unfold ocupados. by rewrite filter_app, filter_cons_True.
Qed.

Lemma ocupados_cons_libre b bs : es_libre b → ocupados (b :: bs) = ocupados bs.
Proof. apply (ocupados_medio_libre [] b bs). Qed.

Lemma ocupados_cons_ocupado b bs :
  ¬ es_libre b → ocupados (b :: bs) = b :: ocupados bs.
Proof. apply (ocupados_medio_ocupado [] b bs). Qed.

Lemma compactar_ocupados m :
  ocupados (bloques (compactarMemoriaFisica m))
  = colocar 0 (ocupados (bloques m)).
Proof.
  rewrite compactar_bloques, ocupados_app.
  rewrite colocar_ocupados by apply ocupados_Forall.
  unfold cola_libre. repeat case_bool_decide; simpl; by rewrite app_nil_r.
Qed.

Lemma cargar_dueños_unicos nom tam m :
  (∀ b, b ∈ bloques m → nombre b ≠ nom) →
  dueños_unicos (bloques m) → dueños_unicos (bloques (cargarProceso nom tam m).1).
Proof.
  intros Hfresh Hnd.
  destruct (cargar_casos nom tam m)
    as [[-> _]|[[-> _]|[[-> _]|(pre & b & post & Ht & Hn & Hbs & Hpre & Hl & Hle)]]];
    try done.
  unfold dueños_unicos in *. rewrite Hbs in Hnd, Hfresh.
  rewrite ocupados_medio_libre in Hnd by done.
  assert (NoDup (nombre <$> ocupados pre ++ mkBloque nom (inicio b) tam
                                 :: ocupados post)) as Hgoal.
  { rewrite fmap_app, fmap_cons. rewrite fmap_app in Hnd.
    apply NoDup_app in Hnd as (H1 & H2 & H3).
    apply NoDup_app. split_and!; [done| |].
    - intros x Hx [->|?]%elem_of_cons; [|by eapply H2]. simpl in Hx.
      apply list_elem_of_fmap in Hx as (y & Hy & [_ Hin]%list_elem_of_filter).
      apply (Hfresh y); [|done]. apply elem_of_app. by left.
    - apply NoDup_cons. split; [|done]. simpl.
      intros (y & Hy & [_ Hin]%list_elem_of_filter)%list_elem_of_fmap.
      apply (Hfresh y); [|done]. apply elem_of_app. right. by right. }
  destruct (decide (tamaño b = tam)) as [Heq|Hne].
  - rewrite (cargar_exacto nom tam m pre b post) by done. simpl.
    by rewrite ocupados_medio_ocupado.
  - rewrite (cargar_parcial nom tam m pre b post) by (done || lia). simpl.
    rewrite ocupados_medio_ocupado by done.
    by rewrite ocupados_cons_libre.
Qed.

Lemma liberar_dueños_unicos nom m :
  dueños_unicos (bloques m) → dueños_unicos (bloques (liberarProceso nom m).1).
Proof.
  intros Hnd.
  destruct (liberar_casos nom m)
    as [[-> _]|[(-> & _)|(pre & b & post & Hn & Hbs & Hpre & Hb)]]; try done.
  rewrite (liberar_encontrado nom m pre b post) by done.
  unfold dueños_unicos in *. simpl. rewrite coalescer_ocupados.
  rewrite ocupados_medio_libre by done. rewrite Hbs in Hnd.
  rewrite ocupados_medio_ocupado in Hnd by (unfold es_libre; congruence).
  rewrite fmap_app in *. rewrite fmap_cons in Hnd.
  apply NoDup_app in Hnd as (H1 & H2 & [_ H3]%NoDup_cons).
  apply NoDup_app. split_and!; [done| |done].
  intros x Hx Hx'. eapply H2; [done|]. by right.
Qed.

Lemma compactar_dueños_unicos m :
  dueños_unicos (bloques m) → dueños_unicos (bloques (compactarMemoriaFisica m)).
Proof.
  unfold dueños_unicos. by rewrite compactar_ocupados, colocar_nombres.
Qed.

Lemma ejecutar_todas_dueños_unicos m ops :
  sin_repetir m ops → dueños_unicos (bloques m) →
  dueños_unicos (bloques (ejecutar_todas m ops)).
Proof.
  unfold ejecutar_todas. revert m.
  induction ops as [|op ops IH]; intros m Hsr Hnd; simpl; [done|].
  destruct Hsr as [Hop Hsr]. apply IH; [done|].
  destruct op; simpl;
    auto using cargar_dueños_unicos, liberar_dueños_unicos, compactar_dueños_unicos.
Qed.

(** *** The example runs *)

Lemma en_rango_64 : Int.en_rango 64.
Proof. unfold Int.en_rango, Int.min_int, Int.max_int; lia. Qed.

Lemma mem_ejemplo_alcanzable : alcanzable mem_ejemplo.
Proof. exists 64, ops_ejemplo. split; [apply en_rango_64|reflexivity]. Qed.

Lemma mem_AB_alcanzable : alcanzable mem_AB.
Proof.
  exists 64, [OpCargar "A" 10; OpCargar "B" 20].
  split; [apply en_rango_64|reflexivity].
Qed.

Lemma mem_A_alcanzable : alcanzable mem_A.
Proof.
  exists 64, [OpCargar "A" 10]. split; [apply en_rango_64|reflexivity].
Qed.

Lemma ops_ejemplo_sin_repetir : sin_repetir (Memoria_new 64) ops_ejemplo.
Proof.
  unfold ops_ejemplo. cbn [sin_repetir]. split_and!; try done.
  - change (bloques (Memoria_new 64)) with [mkBloque "Libre" 0 64].
    intros b Hb.
    repeat (apply elem_of_cons in Hb as [->|Hb]; [discriminate|]).
    by apply elem_of_nil in Hb.
  - change (bloques (ejecutar (Memoria_new 64) (OpCargar "A" 10)))
      with [mkBloque "A" 0 10; mkBloque "Libre" 10 54].
    intros b Hb.
    repeat (apply elem_of_cons in Hb as [->|Hb]; [discriminate|]).
    by apply elem_of_nil in Hb.
Qed.

(** Example 7 of the specification: a full memory of capacity 10. *)
Example ejemplo_memoria_llena :
  cargarProceso "X" 1 (ejecutar_todas (Memoria_new 10) [OpCargar "P" 10])
  = (ejecutar_todas (Memoria_new 10) [OpCargar "P" 10], SinEspacio)
  ∧ bloques (ejecutar_todas (Memoria_new 10) [OpCargar "P" 10])
    = [mkBloque "P" 0 10].
Proof. vm_compute. by split. Qed.

Example mem_ejemplo_bloques :
  bloques mem_ejemplo
  = [mkBloque "Libre" 0 10; mkBloque "B" 10 20; mkBloque "Libre" 30 34].
Proof. vm_compute. reflexivity. Qed.

(** * The claims *)

(** ** C1: the invariants along every run *)

(** C1, as stated, fails: loading the same owner twice leaves two blocks
    that carry it, so invariant 4 does not hold after every run. *)
Lemma C1_duplicate_owner_counterexample :
  Int.en_rango 64 ∧
  ¬ inv_dueños_unicos
      (bloques (ejecutar_todas (Memoria_new 64)
                  [OpCargar "A" 10; OpCargar "A" 10])).
Proof.
  split; [unfold Int.en_rango, Int.min_int, Int.max_int; lia|].
  intros H.
  assert (0 = 1)%nat as Habs; [|discriminate Habs].
  apply (H 0%nat 1%nat (mkBloque "A" 0 10) (mkBloque "A" 10 10)).
  - vm_compute. reflexivity.
  - vm_compute. reflexivity.
  - unfold es_libre. simpl. discriminate.
  - reflexivity.
Qed.

(** C1 (amended): after every run of cargarProceso, liberarProceso and
    compactarMemoriaFisica from a freshly constructed memory, the block list
    satisfies invariants 1, 2, 3 and 5: consecutive blocks touch in strictly
    increasing offset order, the first starts at 0 and the last ends at the
    capacity, no two adjacent blocks are free, and every length is positive.
    Invariant 4 (one block per owner) holds for the runs in which no
    cargarProceso names an owner that labels a block at the time of the
    call. *)
Theorem C1_invariants_along_runs (size : Z) (ops : list Op) :
  Int.en_rango size →
  let m := ejecutar_todas (Memoria_new size) ops in
  inv_contiguo (bloques m)
  ∧ inv_extremos (bloques m) (total_memoria m)
  ∧ inv_sin_libres_adyacentes (bloques m)
  ∧ inv_longitudes_positivas (bloques m)
  ∧ (sin_repetir (Memoria_new size) ops → inv_dueños_unicos (bloques m)).
Proof.
  intros Hr m.
  assert (Inv m) as HI by (by apply ejecutar_todas_Inv, Memoria_new_Inv).
  destruct (Inv_spec m HI) as (H1 & H2 & H3 & H5).
  split_and!; try done.
  intros Hsr. apply dueños_unicos_inv, ejecutar_todas_dueños_unicos; [done|].
  unfold dueños_unicos, Memoria_new. simpl. constructor.
Qed.

Lemma C1_invariants_along_runs_witness :
  Int.en_rango 64
  ∧ inv_contiguo (bloques mem_ejemplo)
  ∧ inv_extremos (bloques mem_ejemplo) (total_memoria mem_ejemplo)
  ∧ inv_sin_libres_adyacentes (bloques mem_ejemplo)
  ∧ inv_longitudes_positivas (bloques mem_ejemplo)
  ∧ inv_dueños_unicos (bloques mem_ejemplo).
Proof.
  destruct (C1_invariants_along_runs 64 ops_ejemplo en_rango_64)
    as (H1 & H2 & H3 & H5 & H4).
  split_and!; [apply en_rango_64|done..|].
  apply H4, ops_ejemplo_sin_repetir.
Defined.

(** ** C2: first fit *)

Lemma cadena_inicios d bs h :
  cadena d bs h → Forall (λ x, d ≤ inicio x < h) bs.
Proof.
  revert d. induction bs as [|a r IH]; intros d; simpl; [constructor|].
  intros (Ha & Hp & Hr). pose proof (cadena_le _ _ _ Hr).
  constructor; [lia|]. apply IH in Hr.
  eapply Forall_impl; [exact Hr|]. simpl. intros; lia.
Qed.

(** C2: with a positive length and an owner other than the free sentinel,
    in every reachable state in which some free block can hold the request,
    cargarProceso takes the first such block in the list, which is the one
    of lowest offset: every block before it starts lower and is either
    occupied or too short.  On an exact fit that block only changes owner;
    otherwise a block with the owner, the same offset and the requested
    length is inserted just before the free remainder, whose offset grows
    and whose length shrinks by the requested length. *)
Theorem C2_first_fit_allocation (m : Memoria) (nom : string) (tam : Z) :
  alcanzable m → 0 < tam → nom ≠ LIBRE_BLOCK_NAME →
  (∃ f, f ∈ bloques m ∧ es_libre f ∧ tam ≤ tamaño f) →
  ∃ pre b post,
    bloques m = pre ++ b :: post
    ∧ (∀ x, x ∈ pre → inicio x < inicio b ∧ ¬ (es_libre x ∧ tam ≤ tamaño x))
    ∧ es_libre b ∧ tam ≤ tamaño b
    ∧ cargarProceso nom tam m =
        ({| bloques :=
              if bool_decide (tamaño b = tam) then
                pre ++ mkBloque nom (inicio b) (tamaño b) :: post
              else
                pre ++ mkBloque nom (inicio b) tam
                    :: mkBloque LIBRE_BLOCK_NAME (inicio b + tam) (tamaño b - tam)
                    :: post;
            total_memoria := total_memoria m |}, Cargado).
Proof.
  intros HI%alcanzable_Inv Htam Hnom (f & Hf & Hfl & Hft).
  destruct (cargar_casos nom tam m)
    as [[_ ?]|[(_ & _ & ?)|[(_ & _ & _ & Hno)|
        (pre & b & post & _ & _ & Hbs & Hpre & Hl & Hle)]]]; [lia|done| |].
  { rewrite Forall_forall in Hno. destruct (Hno f Hf). split; [done|lia]. }
  exists pre, b, post.
  destruct (Inv_bloque_en_rango m pre b post HI Hbs)
    as (k & Hck & _ & Hin & _ & _ & _ & _).
  apply cadena_inicios in Hck. rewrite Forall_forall in Hck.
  pose proof (proj1 (Forall_forall _ _) Hpre) as Hpre'.
  split_and!; try done.
  - intros x Hx. split; [specialize (Hck x Hx); lia|].
    intros [? ?]. apply (Hpre' x Hx). split; [done|lia].
  - case_bool_decide as Heq.
    + rewrite (cargar_exacto nom tam m pre b post) by done. by rewrite Heq.
    + by rewrite (cargar_parcial_Inv nom tam m pre b post) by (done || lia).
Qed.

Lemma C2_first_fit_allocation_witness :
  ∃ pre b post,
    bloques mem_ejemplo = pre ++ b :: post
    ∧ (∀ x, x ∈ pre → inicio x < inicio b ∧ ¬ (es_libre x ∧ 12 ≤ tamaño x))
    ∧ es_libre b ∧ 12 ≤ tamaño b
    ∧ cargarProceso "C" 12 mem_ejemplo =
        ({| bloques :=
              if bool_decide (tamaño b = 12) then
                pre ++ mkBloque "C" (inicio b) (tamaño b) :: post
              else
                pre ++ mkBloque "C" (inicio b) 12
                    :: mkBloque LIBRE_BLOCK_NAME (inicio b + 12) (tamaño b - 12)
                    :: post;
            total_memoria := total_memoria mem_ejemplo |}, Cargado).
Proof.
  apply (C2_first_fit_allocation mem_ejemplo "C" 12).
  - apply mem_ejemplo_alcanzable.
  - lia.
  - discriminate.
  - exists (mkBloque "Libre" 30 34). split_and!.
    + vm_compute. do 2 right. left.
    + reflexivity.
    + simpl. lia.
Defined.

(** ** C3: the error outcomes of cargarProceso *)

(** C3: cargarProceso reports an invalid size when the length is not
    positive, a reserved name when the owner is the free sentinel, and
    insufficient space when no free block can hold the request; the checks
    are made in this order, and whenever the outcome is not a successful
    load the memory is returned unchanged. *)
Theorem C3_allocate_errors_leave_state (m : Memoria) (nom : string) (tam : Z) :
  (tam ≤ 0 → cargarProceso nom tam m = (m, TamañoInvalido))
  ∧ (0 < tam → nom = LIBRE_BLOCK_NAME →
     cargarProceso nom tam m = (m, NombreReservado))
  ∧ (0 < tam → nom ≠ LIBRE_BLOCK_NAME →
     (∀ b, b ∈ bloques m → es_libre b → tamaño b < tam) →
     cargarProceso nom tam m = (m, SinEspacio))
  ∧ ((tam ≤ 0 ∨ nom = LIBRE_BLOCK_NAME
      ∨ ∀ b, b ∈ bloques m → es_libre b → tamaño b < tam) →
     (cargarProceso nom tam m).1 = m ∧ (cargarProceso nom tam m).2 ≠ Cargado).
Proof.
  assert (∀ t, (∀ b, b ∈ bloques m → es_libre b → tamaño b < t) →
               Forall (λ x, ¬ cabe t x) (bloques m)) as Hno.
  { intros t H. apply Forall_forall. intros b Hb [Hl Hge].
    specialize (H b Hb Hl). lia. }
  assert (tam ≤ 0 → cargarProceso nom tam m = (m, TamañoInvalido)) as H1.
  { intros ?. unfold cargarProceso. by rewrite bool_decide_eq_true_2. }
  assert (0 < tam → nom = LIBRE_BLOCK_NAME →
          cargarProceso nom tam m = (m, NombreReservado)) as H2.
  { intros ? ?. unfold cargarProceso.
    rewrite bool_decide_eq_false_2 by lia. by rewrite bool_decide_eq_true_2. }
  assert (0 < tam → nom ≠ LIBRE_BLOCK_NAME →
          (∀ b, b ∈ bloques m → es_libre b → tamaño b < tam) →
          cargarProceso nom tam m = (m, SinEspacio)) as H3.
  { intros ? ? H. apply cargar_sin_espacio; auto. }
  split_and!; try done.
  intros Hcaso.
  destruct (decide (tam ≤ 0)) as [?|?]; [by rewrite H1|].
  destruct (decide (nom = LIBRE_BLOCK_NAME)) as [?|?]; [by rewrite H2 by (done || lia)|].
  destruct Hcaso as [?|[?|?]]; [lia|done|]. by rewrite H3 by (done || lia).
Qed.

Lemma C3_allocate_errors_leave_state_witness :
  cargarProceso "X" 0 mem_ejemplo = (mem_ejemplo, TamañoInvalido)
  ∧ cargarProceso "Libre" 3 mem_ejemplo = (mem_ejemplo, NombreReservado)
  ∧ cargarProceso "X" 40 mem_ejemplo = (mem_ejemplo, SinEspacio).
Proof.
  destruct (C3_allocate_errors_leave_state mem_ejemplo "X" 0) as (H1 & _).
  destruct (C3_allocate_errors_leave_state mem_ejemplo "Libre" 3) as (_ & H2 & _).
  destruct (C3_allocate_errors_leave_state mem_ejemplo "X" 40) as (_ & _ & H3 & _).
  split_and!.
  - apply H1. lia.
  - apply H2; [lia|reflexivity].
  - apply H3; [lia|discriminate|].
    rewrite mem_ejemplo_bloques. intros b Hb _.
    repeat (apply elem_of_cons in Hb as [->|Hb]; [simpl; lia|]).
    by apply elem_of_nil in Hb.
Defined.

(** ** C5 and C6: the physical compaction *)

Lemma colocar_Forall_ocupados p bs :
  Forall (λ b, ¬ es_libre b) bs → Forall (λ b, ¬ es_libre b) (colocar p bs).
Proof.
  intros H. revert p. induction H; intros p; simpl; constructor; eauto.
Qed.

Lemma libre_al_final bs cola (i : nat) b :
  Forall (λ x, ¬ es_libre x) bs → (length cola ≤ 1)%nat →
  (bs ++ cola) !! i = Some b → es_libre b → S i = length (bs ++ cola).
Proof.
  intros Hoc Hc [Hi|[Hge Hi]]%lookup_app_Some Hb.
  - rewrite Forall_lookup in Hoc. by destruct (Hoc i b Hi).
  - rewrite length_app. apply lookup_lt_Some in Hi. lia.
Qed.

Lemma cola_libre_length c p t : (length (cola_libre c p t) ≤ 1)%nat.
Proof. unfold cola_libre. repeat case_bool_decide; simpl; lia. Qed.

(** C5: in every reachable state compactarMemoriaFisica lays the occupied
    blocks out again from offset 0, each at the cursor left by the ones
    before it and in the order they had, and then, when the cursor is below
    the capacity, appends one free block from the cursor to the capacity.
    With no occupied block the result is a single free block that spans the
    capacity.  A free block of the result can only be its last block. *)
Theorem C5_compaction_layout (m : Memoria) :
  alcanzable m →
  let occ := ocupados (bloques m) in
  let r := compactarMemoriaFisica m in
  bloques r =
    recolocar 0 occ ++
    (if bool_decide (suma occ < total_memoria m)
     then [mkBloque LIBRE_BLOCK_NAME (suma occ) (total_memoria m - suma occ)]
     else [])
  ∧ (occ = [] → bloques r = [mkBloque LIBRE_BLOCK_NAME 0 (total_memoria m)])
  ∧ (∀ (i : nat) b, bloques r !! i = Some b → es_libre b →
       S i = length (bloques r)).
Proof.
  intros HI%alcanzable_Inv occ r.
  destruct (compactar_Inv_bloques m HI) as (Hle & Hpos & Hbs). fold occ in Hbs, Hle.
  destruct HI as (Htot & _ & _).
  split_and!.
  - exact Hbs.
  - intros Hocc. subst r. rewrite Hbs, Hocc. simpl.
    rewrite bool_decide_eq_true_2 by lia. by rewrite Z.sub_0_r.
  - intros i b. subst r. rewrite compactar_bloques.
    apply libre_al_final; [|apply cola_libre_length].
    apply colocar_Forall_ocupados, ocupados_Forall.
Qed.

Lemma C5_compaction_layout_witness :
  alcanzable mem_ejemplo
  ∧ bloques (compactarMemoriaFisica mem_ejemplo)
    = [mkBloque "B" 0 20; mkBloque "Libre" 20 44].
Proof.
  split; [apply mem_ejemplo_alcanzable|].
  destruct (C5_compaction_layout mem_ejemplo mem_ejemplo_alcanzable)
    as (-> & _ & _).
  vm_compute. reflexivity.
Defined.

(** C6: compactarMemoriaFisica is idempotent, in every state and so in
    every reachable one: a second call returns the memory the first one
    returned, and each call keeps the owners of the occupied blocks in the
    order they had. *)
Theorem C6_compaction_idempotent (m : Memoria) :
  compactarMemoriaFisica (compactarMemoriaFisica m) = compactarMemoriaFisica m
  ∧ nombre <$> ocupados (bloques (compactarMemoriaFisica m))
    = nombre <$> ocupados (bloques m).
Proof.
  split.
  - apply Memoria_ext; [|by rewrite !compactar_total].
    rewrite (compactar_bloques (compactarMemoriaFisica m)).
    rewrite compactar_ocupados, compactar_total.
    rewrite colocar_colocar, avanzar_colocar.
    by rewrite <- compactar_bloques.
  - by rewrite compactar_ocupados, colocar_nombres.
Qed.

(** ** C7: load, then release *)

Lemma coalescer_id bs :
  sin_adyacentes bs → compactarEspaciosLibresAdyacentes bs = bs.
Proof.
  destruct bs as [|b0 resto]; [done|].
  rewrite coalescer_fusionar. apply fusionar_id.
Qed.

Lemma fusionar_prefijo a pre x resto :
  sin_adyacentes (a :: pre ++ [x]) →
  fusionar a (pre ++ x :: resto) = a :: pre ++ fusionar x resto.
Proof.
  revert a. induction pre as [|a' pre IH]; intros a [Hn Hs]; simpl in *.
  - by rewrite bool_decide_eq_false_2.
  - rewrite bool_decide_eq_false_2 by done. by rewrite IH.
Qed.

Lemma coalescer_prefijo pre x resto :
  sin_adyacentes (pre ++ [x]) →
  compactarEspaciosLibresAdyacentes (pre ++ x :: resto)
  = pre ++ fusionar x resto.
Proof.
  destruct pre as [|a pre]; simpl app; intros Hs.
  - apply coalescer_fusionar.
  - rewrite coalescer_fusionar. by apply fusionar_prefijo.
Qed.

(** C7, as stated, fails: when the owner already labels a block, the
    release that follows the load frees that older block, and neither the
    total free space nor the number of free blocks returns to its value. *)
Lemma C7_duplicate_owner_counterexample :
  alcanzable mem_A
  ∧ (cargarProceso "A" 5 mem_A).2 = Cargado
  ∧ TotalFree mem_A = 54
  ∧ TotalFree (liberarProceso "A" (cargarProceso "A" 5 mem_A).1).1 = 59
  ∧ FreeBlockCount mem_A = 1%nat
  ∧ FreeBlockCount (liberarProceso "A" (cargarProceso "A" 5 mem_A).1).1 = 2%nat.
Proof.
  split; [apply mem_A_alcanzable|]. vm_compute. by split_and!.
Qed.

(** C7 (amended): in every reachable state, for every owner that labels no
    block of the state and every length for which cargarProceso succeeds,
    the liberarProceso of that owner that follows succeeds and gives back
    the memory as it was before the load; the total free space and the
    number of free blocks are therefore the ones before the load. *)
Theorem C7_allocate_release_restores (m : Memoria) (nom : string) (tam : Z) :
  alcanzable m →
  (∀ b, b ∈ bloques m → nombre b ≠ nom) →
  (cargarProceso nom tam m).2 = Cargado →
  let m1 := (cargarProceso nom tam m).1 in
  (liberarProceso nom m1).2 = Liberado
  ∧ (liberarProceso nom m1).1 = m
  ∧ TotalFree (liberarProceso nom m1).1 = TotalFree m
  ∧ FreeBlockCount (liberarProceso nom m1).1 = FreeBlockCount m.
Proof.
  intros HI%alcanzable_Inv Hfresh Hok m1.
  assert ((liberarProceso nom m1).2 = Liberado ∧ (liberarProceso nom m1).1 = m)
    as [H1 H2]; [|by rewrite H1, H2].
  subst m1.
  destruct (cargar_casos nom tam m)
    as [[Heq _]|[[Heq _]|[[Heq _]|(pre & b & post & Ht & Hn & Hbs & Hpre & Hl & Hle)]]];
    try (rewrite Heq in Hok; discriminate Hok).
  destruct (Inv_bloque_en_rango m pre b post HI Hbs)
    as (k & _ & ? & Hin & ? & _ & ? & ?).
  pose proof HI as (_ & _ & Hsin).
  assert (Forall (λ x, nombre x ≠ nom) pre) as Hpre'.
  { apply Forall_forall. intros x Hx. apply Hfresh.
    rewrite Hbs, elem_of_app. by left. }
  pose proof Hsin as Hsin'. rewrite Hbs in Hsin'.
  apply sin_adyacentes_app_cons in Hsin' as [Hs1 Hs2].
  destruct (decide (tamaño b = tam)) as [Heq|Hne].
  - rewrite (cargar_exacto nom tam m pre b post) by done. cbn [fst].
    erewrite liberar_encontrado; [|done|reflexivity|done|reflexivity].
    cbn [fst snd inicio tamaño total_memoria]. split; [done|].
    apply Memoria_ext; [|done]. cbn [bloques].
    rewrite <- Heq, <- Hl, Bloque_eta, <- Hbs. by apply coalescer_id.
  - rewrite (cargar_parcial_Inv nom tam m pre b post) by (done || lia).
    cbn [fst].
    erewrite liberar_encontrado; [|done|reflexivity|done|reflexivity].
    cbn [fst snd inicio tamaño total_memoria]. split; [done|].
    apply Memoria_ext; [|done]. cbn [bloques].
    rewrite coalescer_prefijo.
    2:{ eapply sin_adyacentes_snoc_nombre; [|exact Hs1]. done. }
    rewrite Hbs. f_equal. cbn [fusionar].
    rewrite bool_decide_eq_true_2 by done. cbn [nombre inicio tamaño].
    rewrite Int_add_id
      by (unfold Int.en_rango, Int.min_int, Int.max_int in *; lia).
    replace (tam + (tamaño b - tam)) with (tamaño b) by lia.
    rewrite <- Hl, Bloque_eta. by apply fusionar_id.
Qed.

Lemma C7_allocate_release_restores_witness :
  (liberarProceso "C" (cargarProceso "C" 12 mem_ejemplo).1).2 = Liberado
  ∧ (liberarProceso "C" (cargarProceso "C" 12 mem_ejemplo).1).1 = mem_ejemplo
  ∧ TotalFree (liberarProceso "C" (cargarProceso "C" 12 mem_ejemplo).1).1
    = TotalFree mem_ejemplo
  ∧ FreeBlockCount (liberarProceso "C" (cargarProceso "C" 12 mem_ejemplo).1).1
    = FreeBlockCount mem_ejemplo.
Proof.
  apply (C7_allocate_release_restores mem_ejemplo "C" 12).
  - apply mem_ejemplo_alcanzable.
  - rewrite mem_ejemplo_bloques. intros b Hb.
    repeat (apply elem_of_cons in Hb as [->|Hb]; [discriminate|]).
    by apply elem_of_nil in Hb.
  - reflexivity.
Defined.

(** ** C8: the number of free blocks after a release or a compaction *)

Lemma sin_libres_contables bs :
  Forall (λ b, ¬ es_libre b) bs →
  filter (λ b, es_libre b ∧ tamaño b > 0) bs = [].
Proof.
  induction 1 as [|b bs Hb _ IH]; [done|].
  rewrite filter_cons_False by tauto. done.
Qed.

(** C8, as stated, fails for liberarProceso: the coalescing pass merges
    adjacent free blocks only, so a release can leave free blocks on both
    sides of an occupied one. *)
Lemma C8_release_counterexample :
  alcanzable mem_AB
  ∧ (liberarProceso "A" mem_AB).2 = Liberado
  ∧ FreeBlockCount (liberarProceso "A" mem_AB).1 = 2%nat
  ∧ ¬ (FreeBlockCount (liberarProceso "A" mem_AB).1 ≤ 1)%nat.
Proof.
  split; [apply mem_AB_alcanzable|].
  assert (FreeBlockCount (liberarProceso "A" mem_AB).1 = 2%nat) as Hc
    by (vm_compute; reflexivity).
  split_and!; [vm_compute; reflexivity|exact Hc|rewrite Hc; lia].
Qed.

(** C8 (amended): after compactarMemoriaFisica, in any state, at most one
    block is free with a positive length; after a successful liberarProceso
    no two adjacent blocks are free. *)
Theorem C8_free_blocks_after_compact_or_release (m : Memoria) :
  (FreeBlockCount (compactarMemoriaFisica m) ≤ 1)%nat
  ∧ ∀ nom, (liberarProceso nom m).2 = Liberado →
      inv_sin_libres_adyacentes (bloques (liberarProceso nom m).1).
Proof.
  split.
  - unfold FreeBlockCount, calcularFragmentacionExterna, num_bloques_libres.
    cbn [snd]. rewrite compactar_bloques, filter_app, length_app.
    rewrite sin_libres_contables
      by apply colocar_Forall_ocupados, ocupados_Forall.
    etrans; [apply length_filter|]. apply cola_libre_length.
  - intros nom Hok.
    destruct (liberar_casos nom m)
      as [[Heq _]|[(Heq & _)|(pre & b & post & Hn & Hbs & Hpre & Hb)]];
      try (rewrite Heq in Hok; discriminate Hok).
    rewrite (liberar_encontrado nom m pre b post) by done. cbn [fst bloques].
    apply sin_adyacentes_inv, coalescer_sin_adyacentes.
Qed.

Lemma C8_free_blocks_after_compact_or_release_witness :
  (FreeBlockCount (compactarMemoriaFisica mem_ejemplo) ≤ 1)%nat
  ∧ inv_sin_libres_adyacentes (bloques (liberarProceso "A" mem_AB).1).
Proof.
  split.
  - apply (C8_free_blocks_after_compact_or_release mem_ejemplo).
  - apply (C8_free_blocks_after_compact_or_release mem_AB). reflexivity.
Defined.

(** ** C9: what the compaction keeps *)

Lemma libres_cons_libre b bs : es_libre b → libres (b :: bs) = b :: libres bs.
Proof. intros. unfold libres. by rewrite filter_cons_True. Qed.

Lemma libres_cons_ocupado b bs : ¬ es_libre b → libres (b :: bs) = libres bs.
Proof. intros. unfold libres. by rewrite filter_cons_False. Qed.

(** Within the range of [int], [std::accumulate] returns the exact sum. *)
Lemma frag_externa_fold bs acc :
  Forall (λ b, 0 < tamaño b) bs → 0 ≤ acc →
  acc + suma (libres bs) ≤ Int.max_int →
  fold_left (λ sum b, if bool_decide (es_libre b)
                      then Int.add sum (tamaño b) else sum) bs acc
  = acc + suma (libres bs).
Proof.
  intros Hpos. revert acc.
  induction Hpos as [|b bs Hb Hbs IH]; intros acc Hacc Hmax; simpl; [lia|].
  pose proof (suma_nonneg (libres bs) (Forall_positiva_filter _ _ Hbs)).
  case_bool_decide as Hl.
  - rewrite libres_cons_libre in * by done. simpl in Hmax.
    rewrite Int_add_id
      by (unfold Int.en_rango, Int.min_int, Int.max_int in *; lia).
    rewrite IH; simpl; lia.
  - rewrite libres_cons_ocupado in * by done. by apply IH.
Qed.

Lemma Inv_TotalFree m :
  Inv m → TotalFree m = total_memoria m - suma (ocupados (bloques m)).
Proof.
  intros (Htot & Hcad & _).
  pose proof (cadena_positiva _ _ _ Hcad) as Hpos.
  pose proof (cadena_suma _ _ _ Hcad) as Hsum.
  rewrite (suma_ocupados_libres (bloques m)) in Hsum.
  pose proof (suma_nonneg _ (Forall_positiva_filter (λ b, ¬ es_libre b) _ Hpos)).
  unfold TotalFree, calcularFragmentacionExterna, frag_externa. cbn [fst].
  fold (ocupados (bloques m)) in *.
  rewrite frag_externa_fold; [lia|done|lia|lia].
Qed.

Lemma suma_tamaños l1 l2 : tamaño <$> l1 = tamaño <$> l2 → suma l1 = suma l2.
Proof.
  revert l2. induction l1 as [|a l1 IH]; intros [|b l2] Heq; try done.
  rewrite !fmap_cons in Heq. injection Heq as Ht Hr.
  simpl. by rewrite Ht, (IH l2 Hr).
Qed.

Lemma colocar_pares p bs :
  (λ b, (nombre b, tamaño b)) <$> colocar p bs
  = (λ b, (nombre b, tamaño b)) <$> bs.
Proof.
  revert p. induction bs as [|b bs IH]; intros p; simpl; [done|]. by rewrite IH.
Qed.

(** C9: in every reachable state compactarMemoriaFisica keeps the total free
    space reported by calcularFragmentacionExterna, and keeps the sequence
    of (owner, length) pairs of the occupied blocks. *)
Theorem C9_compaction_preserves_content (m : Memoria) :
  alcanzable m →
  TotalFree (compactarMemoriaFisica m) = TotalFree m
  ∧ (λ b, (nombre b, tamaño b)) <$> ocupados (bloques (compactarMemoriaFisica m))
    = (λ b, (nombre b, tamaño b)) <$> ocupados (bloques m).
Proof.
  intros HI%alcanzable_Inv. split.
  - rewrite (Inv_TotalFree m HI).
    rewrite (Inv_TotalFree _ (compactar_Inv m HI)).
    rewrite compactar_total, compactar_ocupados.
    f_equal. apply suma_tamaños, colocar_tamaños.
  - by rewrite compactar_ocupados, colocar_pares.
Qed.

Lemma C9_compaction_preserves_content_witness :
  alcanzable mem_ejemplo
  ∧ (TotalFree (compactarMemoriaFisica mem_ejemplo) = TotalFree mem_ejemplo
     ∧ (λ b, (nombre b, tamaño b))
         <$> ocupados (bloques (compactarMemoriaFisica mem_ejemplo))
       = (λ b, (nombre b, tamaño b)) <$> ocupados (bloques mem_ejemplo)).
Proof.
  split; [apply mem_ejemplo_alcanzable|].
  exact (C9_compaction_preserves_content mem_ejemplo mem_ejemplo_alcanzable).
Defined.

(** ** Blocks that carry a given owner *)

Lemma con_nombre_app nom l1 l2 :
  con_nombre nom (l1 ++ l2) = con_nombre nom l1 ++ con_nombre nom l2.
Proof. apply filter_app. Qed.

Lemma con_nombre_cons_si nom b bs :
  nombre b = nom → con_nombre nom (b :: bs) = b :: con_nombre nom bs.
Proof. intros. unfold con_nombre. by rewrite filter_cons_True. Qed.

Lemma con_nombre_cons_no nom b bs :
  nombre b ≠ nom → con_nombre nom (b :: bs) = con_nombre nom bs.
Proof. intros. unfold con_nombre. by rewrite filter_cons_False. Qed.

Lemma con_nombre_ninguno nom bs :
  Forall (λ x, nombre x ≠ nom) bs → con_nombre nom bs = [].
Proof.
  induction 1 as [|b bs Hb _ IH]; [done|]. by rewrite con_nombre_cons_no.
Qed.

Lemma con_nombre_ocupados nom bs :
  nom ≠ LIBRE_BLOCK_NAME → con_nombre nom (ocupados bs) = con_nombre nom bs.
Proof.
  intros Hnom. induction bs as [|b bs IH]; [done|].
  destruct (decide (es_libre b)) as [Hb|Hb].
  - rewrite ocupados_cons_libre by done.
    rewrite con_nombre_cons_no by (unfold es_libre in Hb; congruence). done.
  - rewrite ocupados_cons_ocupado by done.
    destruct (decide (nombre b = nom)).
    + rewrite !con_nombre_cons_si by done. by rewrite IH.
    + by rewrite !con_nombre_cons_no.
Qed.

Lemma con_nombre_coalescer nom bs :
  nom ≠ LIBRE_BLOCK_NAME →
  con_nombre nom (compactarEspaciosLibresAdyacentes bs) = con_nombre nom bs.
Proof.
  intros Hnom. rewrite <- (con_nombre_ocupados nom (compactarEspaciosLibresAdyacentes bs)) by done.
  rewrite coalescer_ocupados. by apply con_nombre_ocupados.
Qed.

Example duplicado_ejemplo :
  bloques (cargarProceso "A" 5 mem_A).1
  = [mkBloque "A" 0 10; mkBloque "A" 10 5; mkBloque "Libre" 15 49]
  ∧ bloques (liberarProceso "A" (cargarProceso "A" 5 mem_A).1).1
  = [mkBloque "Libre" 0 10; mkBloque "A" 10 5; mkBloque "Libre" 15 49].
Proof. vm_compute. by split. Qed.

(** * Further properties of the allocator *)

(** ** The capacity *)

Lemma cargar_total nom tam m :
  total_memoria (cargarProceso nom tam m).1 = total_memoria m.
Proof.
  unfold cargarProceso. repeat case_bool_decide; try done.
  destruct (list_find _ _) as [[i b]|]; [|done]. by case_bool_decide.
Qed.

Lemma liberar_total nom m :
  total_memoria (liberarProceso nom m).1 = total_memoria m.
Proof.
  unfold liberarProceso. case_bool_decide; [done|].
  by destruct (list_find _ _) as [[i b]|].
Qed.

Lemma ejecutar_total m op : total_memoria (ejecutar m op) = total_memoria m.
Proof.
  destruct op; simpl; auto using cargar_total, liberar_total, compactar_total.
Qed.

(** X1: the capacity is fixed by the constructor, which replaces a size
    that is not positive by 64, and no run of operations changes it. *)
Theorem X1_capacity_is_fixed (size : Z) (ops : list Op) :
  total_memoria (ejecutar_todas (Memoria_new size) ops)
  = (if bool_decide (size ≤ 0) then 64 else size)
  ∧ 0 < total_memoria (ejecutar_todas (Memoria_new size) ops).
Proof.
  assert (∀ m, total_memoria (ejecutar_todas m ops) = total_memoria m) as Hrun.
  { unfold ejecutar_todas. induction ops as [|op ops IH]; intros m; simpl; [done|].
    by rewrite IH, ejecutar_total. }
  rewrite Hrun. unfold Memoria_new, DEFAULT_TOTAL_MEMORY. simpl.
  case_bool_decide; split; (done || lia).
Qed.

(** ** The coalescing pass on its own *)

Lemma inv_sin_adyacentes bs : inv_sin_libres_adyacentes bs → sin_adyacentes bs.
Proof.
  unfold inv_sin_libres_adyacentes.
  induction bs as [|a r IH]; intros H; [done|]. simpl. split.
  - destruct r as [|c r]; [done|]. by apply (H 0%nat a c).
  - apply IH. intros i b c Hb Hc. by apply (H (S i) b c).
Qed.

(** X2: compactarEspaciosLibresAdyacentes is idempotent on every list, and
    the lists it leaves as they are are exactly those with no two adjacent
    free blocks. *)
Theorem X2_coalesce_idempotent (bs : list Bloque) :
  compactarEspaciosLibresAdyacentes (compactarEspaciosLibresAdyacentes bs)
  = compactarEspaciosLibresAdyacentes bs
  ∧ (compactarEspaciosLibresAdyacentes bs = bs ↔ inv_sin_libres_adyacentes bs).
Proof.
  split.
  - apply coalescer_id, coalescer_sin_adyacentes.
  - split.
    + intros <-. apply sin_adyacentes_inv, coalescer_sin_adyacentes.
    + intros H. by apply coalescer_id, inv_sin_adyacentes.
Qed.

Lemma X2_coalesce_idempotent_witness :
  compactarEspaciosLibresAdyacentes (bloques mem_ejemplo) = bloques mem_ejemplo.
Proof.
  apply (X2_coalesce_idempotent (bloques mem_ejemplo)).
  rewrite mem_ejemplo_bloques. intros i b c Hb Hc [Hlb Hlc].
  destruct i as [|[|[|i]]]; simplify_eq/=; discriminate.
Defined.

Lemma suma_app l1 l2 : suma (l1 ++ l2) = suma l1 + suma l2.
Proof. induction l1; simpl; lia. Qed.

(** X3: on a list whose blocks have positive lengths and tile a range
    [[d, h)] inside the range of [int], the coalescing pass returns a list
    that tiles the same range, keeps every occupied block as it was and in
    the same order, and is no longer than its input. *)
Theorem X3_coalesce_keeps_tiling (d h : Z) (bs : list Bloque) :
  0 ≤ d → h ≤ Int.max_int → cadena d bs h →
  cadena d (compactarEspaciosLibresAdyacentes bs) h
  ∧ ocupados (compactarEspaciosLibresAdyacentes bs) = ocupados bs
  ∧ suma (libres (compactarEspaciosLibresAdyacentes bs)) = suma (libres bs)
  ∧ (length (compactarEspaciosLibresAdyacentes bs) ≤ length bs)%nat.
Proof.
  intros Hd Hh Hc.
  assert (cadena d (compactarEspaciosLibresAdyacentes bs) h) as Hc'.
  { destruct bs as [|b0 r]; [done|].
    rewrite coalescer_fusionar. by apply fusionar_cadena. }
  split_and!.
  - exact Hc'.
  - apply coalescer_ocupados.
  - pose proof (cadena_suma _ _ _ Hc) as H1.
    pose proof (cadena_suma _ _ _ Hc') as H2.
    rewrite suma_ocupados_libres in H1, H2.
    rewrite coalescer_ocupados in H2. lia.
  - destruct bs as [|b0 r]; [done|]. rewrite coalescer_fusionar.
    clear. revert b0. induction r as [|a r IH]; intros b0; simpl; [done|].
    case_bool_decide.
    + etrans; [apply IH|]. simpl. lia.
    + simpl. specialize (IH a). simpl in IH. lia.
Qed.

Lemma X3_coalesce_keeps_tiling_witness :
  cadena 0 (compactarEspaciosLibresAdyacentes
              [mkBloque "Libre" 0 10; mkBloque "Libre" 10 5; mkBloque "B" 15 20]) 35
  ∧ compactarEspaciosLibresAdyacentes
      [mkBloque "Libre" 0 10; mkBloque "Libre" 10 5; mkBloque "B" 15 20]
    = [mkBloque "Libre" 0 15; mkBloque "B" 15 20].
Proof.
  split; [|vm_compute; reflexivity].
  apply (X3_coalesce_keeps_tiling 0 35
           [mkBloque "Libre" 0 10; mkBloque "Libre" 10 5; mkBloque "B" 15 20]).
  - lia.
  - unfold Int.max_int. lia.
  - simpl. lia.
Defined.

(** ** When the operations succeed *)

(** X4: in every state, cargarProceso reports a load exactly when the length
    is positive, the owner is not the free sentinel and some free block is
    at least as long as the request. *)
Theorem X4_allocate_succeeds_iff (m : Memoria) (nom : string) (tam : Z) :
  (cargarProceso nom tam m).2 = Cargado
  ↔ 0 < tam ∧ nom ≠ LIBRE_BLOCK_NAME
    ∧ ∃ f, f ∈ bloques m ∧ es_libre f ∧ tam ≤ tamaño f.
Proof.
  destruct (cargar_casos nom tam m)
    as [[Heq ?]|[(Heq & ? & ?)|[(Heq & ? & ? & Hno)|
        (pre & b & post & Ht & Hn & Hbs & Hpre & Hl & Hle)]]].
  - rewrite Heq. split; [done|]. intros (? & _); lia.
  - rewrite Heq. split; [done|]. by intros (_ & ? & _).
  - rewrite Heq. split; [done|]. intros (_ & _ & f & Hf & Hfl & Hft).
    rewrite Forall_forall in Hno. destruct (Hno f Hf). split; [done|lia].
  - split.
    + intros _. split_and!; [done..|]. exists b. split_and!; [|done..].
      rewrite Hbs, elem_of_app. right. by left.
    + intros _. destruct (decide (tamaño b = tam)).
      * by rewrite (cargar_exacto nom tam m pre b post).
      * by rewrite (cargar_parcial nom tam m pre b post) by (done || lia).
Qed.

Lemma X4_allocate_succeeds_iff_witness :
  (cargarProceso "C" 12 mem_ejemplo).2 = Cargado.
Proof.
  apply (X4_allocate_succeeds_iff mem_ejemplo "C" 12).
  split_and!; [lia|discriminate|].
  exists (mkBloque "Libre" 30 34). rewrite mem_ejemplo_bloques.
  split_and!; [do 2 right; left|reflexivity|simpl; lia].
Defined.

(** X5: in every state, liberarProceso reports a release exactly when the
    owner is not the free sentinel and some block carries it. *)
Theorem X5_release_succeeds_iff (m : Memoria) (nom : string) :
  (liberarProceso nom m).2 = Liberado
  ↔ nom ≠ LIBRE_BLOCK_NAME ∧ ∃ b, b ∈ bloques m ∧ nombre b = nom.
Proof.
  destruct (liberar_casos nom m)
    as [[Heq ?]|[(Heq & ? & Hno)|(pre & b & post & Hn & Hbs & Hpre & Hb)]].
  - rewrite Heq. split; [done|]. by intros [? _].
  - rewrite Heq. split; [done|]. intros (_ & b & Hb & Hbn).
    rewrite Forall_forall in Hno. by destruct (Hno b Hb).
  - rewrite (liberar_encontrado nom m pre b post) by done.
    split; [|done]. intros _. split; [done|]. exists b. split; [|done].
    rewrite Hbs, elem_of_app. right. by left.
Qed.

Lemma X5_release_succeeds_iff_witness :
  (liberarProceso "B" mem_ejemplo).2 = Liberado.
Proof.
  apply (X5_release_succeeds_iff mem_ejemplo "B").
  split; [discriminate|].
  exists (mkBloque "B" 10 20). rewrite mem_ejemplo_bloques.
  split; [right; left|reflexivity].
Defined.

(** ** The two numbers of calcularFragmentacionExterna *)

Lemma alcanzable_en_rango m :
  alcanzable m → 0 < total_memoria m ≤ Int.max_int.
Proof. by intros (? & _)%alcanzable_Inv. Qed.

Lemma Inv_TotalFree_libres m : Inv m → TotalFree m = suma (libres (bloques m)).
Proof.
  intros HI. rewrite (Inv_TotalFree m HI). destruct HI as (_ & Hcad & _).
  pose proof (cadena_suma _ _ _ Hcad) as Hsum.
  rewrite (suma_ocupados_libres (bloques m)) in Hsum. lia.
Qed.

(** X6: in every reachable state the sum computed by
    calcularFragmentacionExterna is the exact sum of the free lengths (the
    accumulation never wraps), it lies between 0 and the capacity, and
    together with the occupied lengths it makes up the capacity. *)
Theorem X6_total_free_exact (m : Memoria) :
  alcanzable m →
  TotalFree m = suma (libres (bloques m))
  ∧ 0 ≤ TotalFree m ≤ total_memoria m
  ∧ TotalFree m + suma (ocupados (bloques m)) = total_memoria m.
Proof.
  intros HI%alcanzable_Inv.
  pose proof (Inv_TotalFree m HI) as Htf.
  destruct HI as (Htot & Hcad & _).
  pose proof (cadena_positiva _ _ _ Hcad) as Hpos.
  pose proof (cadena_suma _ _ _ Hcad) as Hsum.
  rewrite (suma_ocupados_libres (bloques m)) in Hsum.
  pose proof (suma_nonneg _ (Forall_positiva_filter (λ b, ¬ es_libre b) _ Hpos)).
  pose proof (suma_nonneg _ (Forall_positiva_filter es_libre _ Hpos)).
  fold (ocupados (bloques m)) in *. fold (libres (bloques m)) in *.
  split_and!; lia.
Qed.

Lemma X6_total_free_exact_witness :
  alcanzable mem_ejemplo
  ∧ TotalFree mem_ejemplo = suma (libres (bloques mem_ejemplo))
  ∧ 0 ≤ TotalFree mem_ejemplo ≤ total_memoria mem_ejemplo
  ∧ TotalFree mem_ejemplo + suma (ocupados (bloques mem_ejemplo))
    = total_memoria mem_ejemplo.
Proof.
  split; [apply mem_ejemplo_alcanzable|].
  exact (X6_total_free_exact mem_ejemplo mem_ejemplo_alcanzable).
Defined.

Lemma libres_vs_ocupados bs :
  sin_adyacentes bs →
  (length (libres bs) ≤ length (ocupados bs) + 1)%nat
  ∧ (match bs with b :: _ => ¬ es_libre b | [] => True end →
     (length (libres bs) ≤ length (ocupados bs))%nat).
Proof.
  induction bs as [|b r IH]; [simpl; lia|]. intros [Hb Hr].
  destruct (IH Hr) as [IH1 IH2].
  destruct (decide (es_libre b)) as [Hl|Hl].
  - rewrite libres_cons_libre, ocupados_cons_libre by done. simpl.
    split; [|done]. assert (length (libres r) ≤ length (ocupados r))%nat; [|lia].
    apply IH2. destruct r as [|c r]; [done|tauto].
  - rewrite libres_cons_ocupado, ocupados_cons_ocupado by done. simpl.
    split; intros; lia.
Qed.

Lemma contables_libres bs :
  Forall (λ b, 0 < tamaño b) bs →
  filter (λ b, es_libre b ∧ tamaño b > 0) bs = libres bs.
Proof.
  unfold libres. induction 1 as [|b bs Hb _ IH]; [done|].
  rewrite !filter_cons, IH.
  destruct (decide (es_libre b)), (decide (es_libre b ∧ tamaño b > 0));
    try done; exfalso; intuition lia.
Qed.

(** X7: in every reachable state the count computed by
    calcularFragmentacionExterna is the number of free blocks, it exceeds
    the number of occupied blocks by at most one, and it is zero exactly
    when the total free space is zero, so the count is printed exactly when
    there is a free block to count. *)
Theorem X7_free_block_count (m : Memoria) :
  alcanzable m →
  FreeBlockCount m = length (libres (bloques m))
  ∧ (FreeBlockCount m ≤ length (ocupados (bloques m)) + 1)%nat
  ∧ (FreeBlockCount m = 0%nat ↔ TotalFree m = 0).
Proof.
  intros HI%alcanzable_Inv. pose proof (Inv_TotalFree_libres m HI) as Htf.
  destruct HI as (_ & Hcad & Hsin).
  pose proof (cadena_positiva _ _ _ Hcad) as Hpos.
  assert (FreeBlockCount m = length (libres (bloques m))) as Hc.
  { unfold FreeBlockCount, calcularFragmentacionExterna, num_bloques_libres.
    cbn [snd]. by rewrite contables_libres. }
  split_and!; [done|rewrite Hc; by apply libres_vs_ocupados|].
  rewrite Hc, Htf.
  pose proof (Forall_positiva_filter es_libre _ Hpos) as Hl.
  fold (libres (bloques m)) in Hl.
  destruct Hl as [|b l Hb Hl]; simpl; [done|].
  pose proof (suma_nonneg _ Hl). split; [done|lia].
Qed.

Lemma X7_free_block_count_witness :
  alcanzable mem_ejemplo
  ∧ FreeBlockCount mem_ejemplo = length (libres (bloques mem_ejemplo))
  ∧ (FreeBlockCount mem_ejemplo ≤ length (ocupados (bloques mem_ejemplo)) + 1)%nat
  ∧ (FreeBlockCount mem_ejemplo = 0%nat ↔ TotalFree mem_ejemplo = 0).
Proof.
  split; [apply mem_ejemplo_alcanzable|].
  exact (X7_free_block_count mem_ejemplo mem_ejemplo_alcanzable).
Defined.

(** ** What a load and a release do to the free space and to the occupied
    blocks *)

(** X8: in every reachable state a successful cargarProceso lowers the total
    free space by the requested length and adds one block with the owner and
    that length to the occupied blocks, all of which stay as they were and in
    their order. *)
Theorem X8_allocate_effect (m : Memoria) (nom : string) (tam : Z) :
  alcanzable m → (cargarProceso nom tam m).2 = Cargado →
  TotalFree (cargarProceso nom tam m).1 = TotalFree m - tam
  ∧ ∃ antes despues desde,
      ocupados (bloques m) = antes ++ despues
      ∧ ocupados (bloques (cargarProceso nom tam m).1)
        = antes ++ mkBloque nom desde tam :: despues.
Proof.
  intros HI%alcanzable_Inv Hok.
  pose proof (cargar_Inv nom tam m HI) as HI1.
  rewrite (Inv_TotalFree _ HI1), (Inv_TotalFree _ HI), cargar_total.
  assert (∃ antes despues desde,
            ocupados (bloques m) = antes ++ despues
            ∧ ocupados (bloques (cargarProceso nom tam m).1)
              = antes ++ mkBloque nom desde tam :: despues)
    as (antes & despues & desde & H1 & H2).
  { destruct (cargar_casos nom tam m)
      as [[Heq _]|[[Heq _]|[[Heq _]|(pre & b & post & Ht & Hn & Hbs & Hpre & Hl & Hle)]]];
      try (rewrite Heq in Hok; discriminate Hok).
    exists (ocupados pre), (ocupados post), (inicio b).
    rewrite Hbs, ocupados_medio_libre by done. split; [done|].
    destruct (decide (tamaño b = tam)).
    - rewrite (cargar_exacto nom tam m pre b post) by done. cbn [fst bloques].
      by rewrite ocupados_medio_ocupado.
    - rewrite (cargar_parcial nom tam m pre b post) by (done || lia).
      cbn [fst bloques]. rewrite ocupados_medio_ocupado by done.
      by rewrite ocupados_cons_libre. }
  split; [|by exists antes, despues, desde].
  rewrite H1, H2, !suma_app. simpl. lia.
Qed.

Lemma X8_allocate_effect_witness :
  TotalFree (cargarProceso "C" 12 mem_ejemplo).1 = TotalFree mem_ejemplo - 12
  ∧ ∃ antes despues desde,
      ocupados (bloques mem_ejemplo) = antes ++ despues
      ∧ ocupados (bloques (cargarProceso "C" 12 mem_ejemplo).1)
        = antes ++ mkBloque "C" desde 12 :: despues.
Proof.
  apply (X8_allocate_effect mem_ejemplo "C" 12).
  - apply mem_ejemplo_alcanzable.
  - reflexivity.
Defined.

(** X9: in every reachable state a successful liberarProceso raises the
    total free space by the length of the first block that carries the
    owner and removes that block, and no other, from the occupied blocks. *)
Theorem X9_release_effect (m : Memoria) (nom : string) :
  alcanzable m → (liberarProceso nom m).2 = Liberado →
  ∃ pre b post,
    bloques m = pre ++ b :: post
    ∧ (∀ x, x ∈ pre → nombre x ≠ nom) ∧ nombre b = nom
    ∧ TotalFree (liberarProceso nom m).1 = TotalFree m + tamaño b
    ∧ ocupados (bloques m) = ocupados pre ++ b :: ocupados post
    ∧ ocupados (bloques (liberarProceso nom m).1) = ocupados pre ++ ocupados post.
Proof.
  intros HI%alcanzable_Inv Hok.
  pose proof (liberar_Inv nom m HI) as HI1.
  rewrite (Inv_TotalFree _ HI1), (Inv_TotalFree _ HI), liberar_total.
  destruct (liberar_casos nom m)
    as [[Heq _]|[(Heq & _)|(pre & b & post & Hn & Hbs & Hpre & Hb)]];
    try (rewrite Heq in Hok; discriminate Hok).
  exists pre, b, post.
  assert (ocupados (bloques m) = ocupados pre ++ b :: ocupados post) as H1.
  { rewrite Hbs. apply ocupados_medio_ocupado. unfold es_libre. congruence. }
  assert (ocupados (bloques (liberarProceso nom m).1)
          = ocupados pre ++ ocupados post) as H2.
  { rewrite (liberar_encontrado nom m pre b post) by done. cbn [fst bloques].
    rewrite coalescer_ocupados. by apply ocupados_medio_libre. }
  split_and!; try done.
  - by apply Forall_forall.
  - rewrite H1, H2, !suma_app. simpl. lia.
Qed.

Lemma X9_release_effect_witness :
  ∃ pre b post,
    bloques mem_AB = pre ++ b :: post
    ∧ (∀ x, x ∈ pre → nombre x ≠ "B") ∧ nombre b = "B"
    ∧ TotalFree (liberarProceso "B" mem_AB).1 = TotalFree mem_AB + tamaño b
    ∧ ocupados (bloques mem_AB) = ocupados pre ++ b :: ocupados post
    ∧ ocupados (bloques (liberarProceso "B" mem_AB).1)
      = ocupados pre ++ ocupados post.
Proof.
  apply (X9_release_effect mem_AB "B").
  - apply mem_AB_alcanzable.
  - reflexivity.
Defined.

(** ** Compaction makes the whole free space usable *)

Lemma cargar_cargado_si nom tam m f :
  0 < tam → nom ≠ LIBRE_BLOCK_NAME →
  f ∈ bloques m → es_libre f → tam ≤ tamaño f →
  (cargarProceso nom tam m).2 = Cargado.
Proof.
  intros Htam Hnom Hf Hfl Hft.
  destruct (cargar_casos nom tam m)
    as [[_ ?]|[(_ & _ & ?)|[(_ & _ & _ & Hno)|
        (pre & b & post & _ & _ & Hbs & Hpre & Hl & Hle)]]]; [lia|done| |].
  { rewrite Forall_forall in Hno. destruct (Hno f Hf). split; [done|lia]. }
  destruct (decide (tamaño b = tam)).
  - by rewrite (cargar_exacto nom tam m pre b post).
  - by rewrite (cargar_parcial nom tam m pre b post) by (done || lia).
Qed.

Lemma cargar_cargado_solo_si nom tam m :
  (cargarProceso nom tam m).2 = Cargado →
  ∃ f, f ∈ bloques m ∧ es_libre f ∧ tam ≤ tamaño f.
Proof.
  intros Hok.
  destruct (cargar_casos nom tam m)
    as [[Heq _]|[[Heq _]|[[Heq _]|(pre & b & post & _ & _ & Hbs & _ & Hl & Hle)]]];
    try (rewrite Heq in Hok; discriminate Hok).
  exists b. split_and!; [|done..]. rewrite Hbs, elem_of_app. right. by left.
Qed.

(** X10: in every reachable state, after compactarMemoriaFisica a request
    with a positive length and an owner other than the free sentinel is
    loaded exactly when its length is at most the total free space the
    memory had: compaction removes the external fragmentation. *)
Theorem X10_compaction_then_allocate (m : Memoria) (nom : string) (tam : Z) :
  alcanzable m → 0 < tam → nom ≠ LIBRE_BLOCK_NAME →
  ((cargarProceso nom tam (compactarMemoriaFisica m)).2 = Cargado
   ↔ tam ≤ TotalFree m).
Proof.
  intros HI%alcanzable_Inv Htam Hnom.
  rewrite (Inv_TotalFree m HI).
  destruct (compactar_Inv_bloques m HI) as (Hle & Hpos & Hbs).
  set (occ := ocupados (bloques m)) in *.
  split.
  - intros (f & Hf & Hfl & Hft)%cargar_cargado_solo_si.
    rewrite Hbs in Hf. apply elem_of_app in Hf as [Hf|Hf].
    + pose proof (recolocar_ocupados 0 occ (ocupados_Forall (bloques m))) as Hoc.
      rewrite Forall_forall in Hoc. by destruct (Hoc f Hf).
    + case_bool_decide; [|by apply elem_of_nil in Hf].
      apply list_elem_of_singleton in Hf as ->. simpl in Hft. done.
  - intros Hcabe.
    apply (cargar_cargado_si nom tam _
             (mkBloque LIBRE_BLOCK_NAME (suma occ) (total_memoria m - suma occ)));
      [done..| |done|simpl; lia].
    rewrite Hbs, bool_decide_eq_true_2 by lia.
    apply elem_of_app. right. by left.
Qed.

Lemma X10_compaction_then_allocate_witness :
  (cargarProceso "C" 40 mem_ejemplo).2 = SinEspacio
  ∧ ((cargarProceso "C" 40 (compactarMemoriaFisica mem_ejemplo)).2 = Cargado
     ↔ 40 ≤ TotalFree mem_ejemplo).
Proof.
  split; [reflexivity|].
  apply (X10_compaction_then_allocate mem_ejemplo "C" 40).
  - apply mem_ejemplo_alcanzable.
  - lia.
  - discriminate.
Defined.

(** ** calcularFragmentacionInterna *)

Lemma interna_fold bs acc :
  0 ≤ acc → acc + Z.of_nat (length bs) ≤ Int.max_int →
  fold_left (λ frag_simulada b,
               if bool_decide (¬ es_libre b ∧ tamaño b > 5)
               then Int.add frag_simulada 1 else frag_simulada) bs acc
  = acc + Z.of_nat (length (grandes bs)).
Proof.
  unfold grandes. revert acc.
  induction bs as [|b bs IH]; intros acc Hacc Hmax; [simpl; lia|].
  rewrite filter_cons. cbn [fold_left]. cbn [length] in Hmax.
  destruct (decide (¬ es_libre b ∧ tamaño b > 5)) as [Hb|Hb].
  - rewrite bool_decide_eq_true_2 by done.
    rewrite Int_add_id
      by (unfold Int.en_rango, Int.min_int, Int.max_int in *; lia).
    rewrite IH by lia. cbn [length]. lia.
  - rewrite bool_decide_eq_false_2 by done. apply IH; lia.
Qed.

Lemma longitud_le_suma bs :
  Forall (λ b, 0 < tamaño b) bs → Z.of_nat (length bs) ≤ suma bs.
Proof. induction 1; simpl; lia. Qed.

Lemma grandes_suma bs :
  Forall (λ b, 0 < tamaño b) bs →
  6 * Z.of_nat (length (grandes bs)) ≤ suma (ocupados bs).
Proof.
  unfold grandes, ocupados. induction 1 as [|b bs Hb _ IH]; [done|].
  rewrite !filter_cons.
  destruct (decide (¬ es_libre b ∧ tamaño b > 5)) as [[? ?]|Hn],
           (decide (¬ es_libre b)); simpl; try lia; tauto.
Qed.

Lemma grandes_ocupados bs : grandes (ocupados bs) = grandes bs.
Proof.
  unfold grandes, ocupados. induction bs as [|b bs IH]; [done|].
  rewrite (filter_cons (λ b, ¬ es_libre b)).
  destruct (decide (¬ es_libre b)).
  - rewrite !filter_cons, IH. done.
  - rewrite IH, (filter_cons_False _ b); [done|tauto].
Qed.

Lemma grandes_colocar p bs :
  length (grandes (colocar p bs)) = length (grandes bs).
Proof.
  unfold grandes. revert p.
  induction bs as [|b bs IH]; intros p; [done|]. cbn [colocar].
  destruct (decide (¬ es_libre b ∧ tamaño b > 5)) as [Hb|Hb].
  - rewrite (filter_cons_True _ b) by done.
    rewrite filter_cons_True by exact Hb. cbn [length]. by rewrite IH.
  - rewrite (filter_cons_False _ b) by done.
    rewrite filter_cons_False by exact Hb. apply IH.
Qed.

Lemma alcanzable_longitud m :
  Inv m → Z.of_nat (length (bloques m)) ≤ total_memoria m.
Proof.
  intros (_ & Hcad & _).
  pose proof (cadena_suma _ _ _ Hcad).
  pose proof (longitud_le_suma _ (cadena_positiva _ _ _ Hcad)). lia.
Qed.

(** X11: in every reachable state calcularFragmentacionInterna returns the
    number of occupied blocks longer than 5 (its counter never wraps); six
    times that number is at most the occupied space; and
    compactarMemoriaFisica does not change it. *)
Theorem X11_internal_fragmentation (m : Memoria) :
  alcanzable m →
  calcularFragmentacionInterna m = Z.of_nat (length (grandes (bloques m)))
  ∧ 6 * calcularFragmentacionInterna m ≤ total_memoria m - TotalFree m
  ∧ calcularFragmentacionInterna (compactarMemoriaFisica m)
    = calcularFragmentacionInterna m.
Proof.
  intros HI%alcanzable_Inv.
  assert (∀ m', Inv m' → calcularFragmentacionInterna m'
                         = Z.of_nat (length (grandes (bloques m')))) as Hex.
  { intros m' HI'. unfold calcularFragmentacionInterna.
    pose proof (alcanzable_longitud m' HI'). destruct HI' as ([_ ?] & _).
    rewrite interna_fold; lia. }
  split_and!.
  - by apply Hex.
  - rewrite (Hex m HI), (Inv_TotalFree m HI).
    destruct HI as (_ & Hcad & _).
    pose proof (grandes_suma _ (cadena_positiva _ _ _ Hcad)). lia.
  - rewrite (Hex m HI), (Hex _ (compactar_Inv m HI)). f_equal.
    rewrite <- (grandes_ocupados (bloques (compactarMemoriaFisica m))).
    rewrite compactar_ocupados, grandes_colocar.
    by rewrite grandes_ocupados.
Qed.

Lemma X11_internal_fragmentation_witness :
  alcanzable mem_AB
  ∧ calcularFragmentacionInterna mem_AB = 2
  ∧ 6 * calcularFragmentacionInterna mem_AB
    ≤ total_memoria mem_AB - TotalFree mem_AB.
Proof.
  destruct (X11_internal_fragmentation mem_AB mem_AB_alcanzable) as (H1 & H2 & _).
  split_and!; [apply mem_AB_alcanzable| |exact H2].
  rewrite H1. reflexivity.
Defined.

(** ** Releasing twice, and how long the list can get *)

(** X12: when at most one block carries each owner, a liberarProceso that
    follows a liberarProceso of the same owner never finds a block: the
    first call, if it released anything, left no block with that owner. *)
Theorem X12_second_release_not_found (m : Memoria) (nom : string) :
  inv_dueños_unicos (bloques m) → nom ≠ LIBRE_BLOCK_NAME →
  (liberarProceso nom (liberarProceso nom m).1).2 = NoEncontrado.
Proof.
  intros Huniq Hnom.
  assert (∀ m', con_nombre nom (bloques m') = [] →
                (liberarProceso nom m').2 = NoEncontrado) as Hnada.
  { intros m' Hnil.
    destruct (liberar_casos nom m')
      as [[_ ?]|[(-> & _)|(pre & b & post & _ & Hbs & _ & Hb)]]; [done..|].
    rewrite Hbs, con_nombre_app, con_nombre_cons_si in Hnil by done.
    by destruct (con_nombre nom pre). }
  destruct (liberar_casos nom m)
    as [[_ ?]|[(Heq & _ & Hno)|(pre & b & post & _ & Hbs & Hpre & Hb)]]; [done| |].
  - rewrite Heq. cbn [fst]. apply Hnada. by apply con_nombre_ninguno.
  - rewrite (liberar_encontrado nom m pre b post) by done. cbn [fst].
    apply Hnada. cbn [bloques].
    rewrite con_nombre_coalescer by done.
    rewrite con_nombre_app, (con_nombre_ninguno nom pre) by done.
    rewrite con_nombre_cons_no by done. simpl.
    apply con_nombre_ninguno, Forall_lookup. intros k x Hk Hx.
    assert (length pre = length pre + S k)%nat as Habs; [|lia].
    apply (Huniq (length pre) (length pre + S k)%nat b x).
    + rewrite Hbs. by apply list_lookup_middle.
    + rewrite Hbs. rewrite lookup_app_r by lia.
      replace (length pre + S k - length pre)%nat with (S k) by lia. done.
    + unfold es_libre. congruence.
    + congruence.
Qed.

Lemma mem_AB_dueños_unicos : inv_dueños_unicos (bloques mem_AB).
Proof.
  apply dueños_unicos_inv. unfold dueños_unicos.
  change (nombre <$> ocupados (bloques mem_AB)) with ["A"; "B"].
  apply NoDup_cons. split; [|apply NoDup_singleton].
  intros Hin%list_elem_of_singleton. discriminate Hin.
Qed.

Lemma X12_second_release_not_found_witness :
  (liberarProceso "A" mem_AB).2 = Liberado
  ∧ (liberarProceso "A" (liberarProceso "A" mem_AB).1).2 = NoEncontrado.
Proof.
  split; [reflexivity|].
  apply (X12_second_release_not_found mem_AB "A").
  - apply mem_AB_dueños_unicos.
  - discriminate.
Defined.

(** X13: in every reachable state the list is not empty and has at most as
    many blocks as the capacity has units. *)
Theorem X13_block_count_bounded (m : Memoria) :
  alcanzable m →
  bloques m ≠ [] ∧ Z.of_nat (length (bloques m)) ≤ total_memoria m.
Proof.
  intros HI%alcanzable_Inv. split; [|by apply alcanzable_longitud].
  destruct HI as ([? _] & Hcad & _). intros Hnil. rewrite Hnil in Hcad.
  simpl in Hcad. lia.
Qed.

Lemma X13_block_count_bounded_witness :
  alcanzable mem_ejemplo
  ∧ bloques mem_ejemplo ≠ []
  ∧ Z.of_nat (length (bloques mem_ejemplo)) ≤ total_memoria mem_ejemplo.
Proof.
  split; [apply mem_ejemplo_alcanzable|].
  exact (X13_block_count_bounded mem_ejemplo mem_ejemplo_alcanzable).
Defined.

(** ** mostrar: the strip of characters *)

Lemma pintar_bloque_rango total b (n : nat) j pre viejo suf :
  0 ≤ j → 0 ≤ inicio b → inicio b + j + Z.of_nat n ≤ total →
  total ≤ Int.max_int →
  length pre = Z.to_nat (inicio b + j) → length viejo = n →
  pintar_bloque total b (seqZ j (Z.of_nat n)) (pre ++ viejo ++ suf)
  = Some (pre ++ replicate n (primera_letra (nombre b)) ++ suf).
Proof.
  revert j pre viejo.
  induction n as [|n IH]; intros j pre viejo Hj Hi Hfin Hmax Hpre Hviejo.
  - destruct viejo; [|done]. done.
  - destruct viejo as [|x viejo]; [done|].
    rewrite seqZ_cons by lia.
    replace (Z.pred (Z.of_nat (S n))) with (Z.of_nat n) by lia.
    cbn [pintar_bloque].
    rewrite Int_add_id
      by (unfold Int.en_rango, Int.min_int, Int.max_int in *; lia).
    rewrite bool_decide_eq_true_2 by lia.
    rewrite bool_decide_eq_true_2 by lia.
    rewrite <- Hpre. cbn [app]. rewrite insert_en_medio.
    rewrite (cons_middle _ pre), app_assoc.
    rewrite IH; [|lia|lia|lia|lia| |by simplify_eq/=].
    + by rewrite <- app_assoc.
    + rewrite length_app, Hpre. simpl. lia.
Qed.

Lemma pintar_bloques_cadena total bs d h pre suf :
  cadena d bs h → 0 ≤ d → h ≤ total → total ≤ Int.max_int →
  length pre = Z.to_nat d →
  pintar_bloques total bs (pre ++ replicate (Z.to_nat (h - d)) "."%char ++ suf)
  = Some (pre ++ pintado bs ++ suf).
Proof.
  unfold pintado. revert d pre.
  induction bs as [|b r IH]; intros d pre Hc Hd Hh Hmax Hpre.
  - simpl in Hc. subst h. by rewrite Z.sub_diag.
  - destruct Hc as (Hi & Hp & Hc). pose proof (cadena_le _ _ _ Hc).
    replace (Z.to_nat (h - d))
      with (Z.to_nat (tamaño b) + Z.to_nat (h - (d + tamaño b)))%nat by lia.
    rewrite replicate_add, <- app_assoc.
    cbn [pintar_bloques flat_map]. unfold letra at 1.
    assert (length (pre ++ replicate (Z.to_nat (tamaño b)) (letra b))
            = Z.to_nat (d + tamaño b)) as Hpre'
      by (rewrite length_app, length_replicate; lia).
    case_bool_decide as Hl.
    + rewrite bool_decide_eq_false_2 by done.
      rewrite <- (Z2Nat.id (tamaño b)) at 1 by lia.
      rewrite pintar_bloque_rango;
        [|lia|lia|lia|lia|rewrite Hi; by replace (d + 0) with d by lia
         |by rewrite length_replicate].
      rewrite app_assoc.
      unfold letra in Hpre'. rewrite bool_decide_eq_false_2 in Hpre' by done.
      rewrite (IH (d + tamaño b)) by (done || lia).
      by rewrite <- !app_assoc.
    + rewrite bool_decide_eq_true_2 by done.
      rewrite app_assoc.
      unfold letra in Hpre'. rewrite bool_decide_eq_true_2 in Hpre' by done.
      rewrite (IH (d + tamaño b)) by (done || lia).
      by rewrite <- !app_assoc.
Qed.

Lemma pintado_length bs :
  Forall (λ b, 0 < tamaño b) bs → length (pintado bs) = Z.to_nat (suma bs).
Proof.
  unfold pintado. induction 1 as [|b bs Hb Hbs IH]; [done|].
  cbn [flat_map suma foldr]. rewrite length_app, length_replicate, IH.
  pose proof (suma_nonneg _ Hbs). unfold suma in *. lia.
Qed.

Lemma vista_de_Inv m : Inv m → vista_de m = Some (pintado (bloques m)).
Proof.
  intros ([? ?] & Hc & _). unfold vista_de.
  rewrite bool_decide_eq_true_2 by lia.
  pose proof (pintar_bloques_cadena (total_memoria m) (bloques m) 0
                (total_memoria m) [] [] Hc) as H1.
  rewrite Z.sub_0_r, !app_nil_r in H1. simpl in H1. apply H1; (done || lia).
Qed.

Lemma pintado_lookup d bs h b p :
  cadena d bs h → 0 ≤ d → b ∈ bs → inicio b ≤ p < inicio b + tamaño b →
  pintado bs !! Z.to_nat (p - d) = Some (letra b).
Proof.
  unfold pintado. revert d.
  induction bs as [|a r IH]; intros d Hc Hd Hb Hp; [by apply elem_of_nil in Hb|].
  destruct Hc as (Hi & Hpos & Hc). cbn [flat_map].
  apply elem_of_cons in Hb as [->|Hb].
  - rewrite lookup_app_l by (rewrite length_replicate; lia).
    apply lookup_replicate. split; [done|lia].
  - pose proof (cadena_inicios _ _ _ Hc) as Hin.
    rewrite Forall_forall in Hin. specialize (Hin b Hb).
    rewrite lookup_app_r by (rewrite length_replicate; lia).
    rewrite length_replicate.
    replace (Z.to_nat (p - d) - Z.to_nat (tamaño a))%nat
      with (Z.to_nat (p - (d + tamaño a))) by lia.
    apply IH; (done || lia).
Qed.

(** X14: in every reachable state the strip that mostrar builds is defined
    (no write falls outside the string), has one character per unit of the
    capacity, and shows at each unit a dot when the block that covers it is
    free and the first character of its owner otherwise. *)
Theorem X14_display_strip (m : Memoria) :
  alcanzable m →
  ∃ vista,
    vista_de m = Some vista
    ∧ length vista = Z.to_nat (total_memoria m)
    ∧ ∀ b p, b ∈ bloques m → inicio b ≤ p < inicio b + tamaño b →
        vista !! Z.to_nat p
        = Some (if bool_decide (es_libre b) then "."%char
                else primera_letra (nombre b)).
Proof.
  intros HI%alcanzable_Inv. exists (pintado (bloques m)).
  pose proof HI as (_ & Hc & _).
  split_and!.
  - by apply vista_de_Inv.
  - rewrite pintado_length by (by eapply cadena_positiva).
    by rewrite (cadena_suma _ _ _ Hc), Z.add_0_l.
  - intros b p Hb Hp.
    pose proof (pintado_lookup 0 (bloques m) _ b p Hc) as Hl.
    rewrite Z.sub_0_r in Hl. by apply Hl.
Qed.

Lemma X14_display_strip_witness :
  ∃ vista,
    vista_de mem_AB = Some vista
    ∧ length vista = Z.to_nat (total_memoria mem_AB)
    ∧ ∀ b p, b ∈ bloques mem_AB → inicio b ≤ p < inicio b + tamaño b →
        vista !! Z.to_nat p
        = Some (if bool_decide (es_libre b) then "."%char
                else primera_letra (nombre b)).
Proof. exact (X14_display_strip mem_AB mem_AB_alcanzable). Defined.

(** ** mostrar: the printed lines *)

Lemma celdas_app total vista is1 is2 :
  celdas total vista (is1 ++ is2)
  = match celdas total vista is1 with
    | Some r1 =>
        match celdas total vista is2 with
        | Some r2 => Some (r1 ++ r2)
        | None => None
        end
    | None => None
    end.
Proof.
  induction is1 as [|i is1 IH]; simpl.
  - by destruct (celdas total vista is2).
  - destruct (vista !! Z.to_nat i); [|done]. rewrite IH.
    destruct (celdas total vista is1); [|done].
    destruct (celdas total vista is2); [|done].
    simpl. by rewrite app_assoc.
Qed.

(** The closing bar and the line break come after the sixteenth unit of a
    line, unless that unit is the last one. *)
Lemma separador_trozo total q o :
  0 ≤ q → 0 ≤ o < 16 → 16 * q + o + 1 ≤ Int.max_int →
  separador total (16 * q + o)
  = if bool_decide (o = 15 ∧ 16 * q + 16 < total) then ["|"%char; salto] else [].
Proof.
  intros Hq Ho Hmax. unfold separador, DISPLAY_BLOCKS_PER_LINE.
  rewrite Int_add_id
    by (unfold Int.en_rango, Int.min_int, Int.max_int in *; lia).
  rewrite Z.rem_mod_nonneg by lia.
  replace (16 * q + o + 1) with ((o + 1) + q * 16) by lia.
  rewrite Z_mod_plus_full.
  destruct (decide (o = 15)) as [->|Hne].
  - change ((15 + 1) `mod` 16) with 0.
    repeat case_bool_decide; (done || lia).
  - rewrite Z.mod_small by lia.
    repeat case_bool_decide; (done || lia).
Qed.

Lemma celdas_trozo total vista w pre suf q o :
  vista = pre ++ w ++ suf → total = Z.of_nat (length vista) →
  total ≤ Int.max_int → 0 ≤ q → 0 ≤ o →
  length pre = Z.to_nat (16 * q + o) → o + Z.of_nat (length w) ≤ 16 →
  celdas total vista (seqZ (16 * q + o) (Z.of_nat (length w)))
  = Some (flat_map (λ c, ["|"%char; c]) w
          ++ (if bool_decide (w ≠ [] ∧ o + Z.of_nat (length w) = 16 ∧ suf ≠ [])
              then ["|"%char; salto] else [])).
Proof.
  intros Hv Htot Hmax Hq. revert pre o Hv.
  induction w as [|c w IH]; intros pre o Hv Ho Hpre Hlen.
  - done.
  - assert (length vista = length pre + S (length w) + length suf)%nat as Hlv
      by (rewrite Hv, !length_app; simpl; lia).
    rewrite seqZ_cons by (simpl; lia).
    replace (Z.pred (Z.of_nat (length (c :: w)))) with (Z.of_nat (length w))
      by (simpl; lia).
    cbn [celdas].
    assert (vista !! Z.to_nat (16 * q + o) = Some c) as ->.
    { rewrite <- Hpre, Hv. by apply list_lookup_middle. }
    replace (Z.succ (16 * q + o)) with (16 * q + (o + 1)) by lia.
    rewrite (IH (pre ++ [c]) (o + 1));
      [|by rewrite Hv, <- app_assoc|lia
       |rewrite length_app, Hpre; simpl; lia|simpl in Hlen; lia].
    rewrite separador_trozo by (simpl in Hlen; lia).
    f_equal. cbn [flat_map app]. do 2 f_equal. simpl in Hlen.
    destruct w as [|c' w].
    + cbn [flat_map length app].
      rewrite (bool_decide_eq_false_2 ([] ≠ [] ∧ _)) by (by intros [? _]).
      rewrite app_nil_r.
      assert (o = 15 → (suf ≠ [] ↔ 16 * q + 16 < total)) as Hsuf.
      { intros ->. destruct suf; simpl in *; split; intros; try done; lia. }
      case_bool_decide as H1; case_bool_decide as H2; try done; exfalso.
      * destruct H1 as [-> Ht]. apply H2. split_and!; [done|lia|by apply Hsuf].
      * destruct H2 as (_ & Ho15 & Hs). apply H1.
        assert (o = 15) as Ho' by lia. split; [done|]. by apply Hsuf.
    + rewrite bool_decide_eq_false_2 by (cbn [length] in Hlen; lia). cbn [app].
      do 5 f_equal.
      case_bool_decide as H1; case_bool_decide as H2; try done; exfalso.
      * apply H2. destruct H1 as (_ & ? & ?).
        split_and!; [done|cbn [length] in *; lia|done].
      * apply H1. destruct H2 as (_ & ? & ?).
        split_and!; [done|cbn [length] in *; lia|done].
Qed.

Lemma trozos_aux_nil {A} fuel n : @trozos_aux A fuel n [] = [].
Proof. by destruct fuel. Qed.

Lemma barra_trozos_aux total fuel w pre q :
  (length w ≤ fuel)%nat → w ≠ [] → 0 ≤ q →
  length pre = Z.to_nat (16 * q) →
  total = Z.of_nat (length (pre ++ w)) → total ≤ Int.max_int →
  ∃ r, celdas total (pre ++ w) (seqZ (16 * q) (Z.of_nat (length w))) = Some r
       ∧ r ++ ["|"%char; salto] = flat_map fila (trozos_aux fuel 16 w).
Proof.
  revert w pre q.
  induction fuel as [|fuel IH]; intros w pre q Hfuel Hw Hq Hpre Htot Hmax.
  { destruct w; [done|simpl in Hfuel; lia]. }
  destruct w as [|c0 w0] eqn:Ew; [done|]. rewrite <- Ew in *. clear Hw.
  assert (w ≠ []) as Hw by (by rewrite Ew).
  assert (trozos_aux (S fuel) 16 w
          = take 16 w :: trozos_aux fuel 16 (drop 16 w)) as ->
    by (by rewrite Ew).
  clear Ew c0 w0.
  destruct (decide (length w ≤ 16)%nat) as [Hcorto|Hlargo].
  - rewrite take_ge, drop_ge, trozos_aux_nil by lia.
    pose proof (celdas_trozo total (pre ++ w) w pre [] q 0) as Hc.
    rewrite !Z.add_0_r in Hc.
    rewrite Hc; [|by rewrite app_nil_r|done|done|done|lia|done|lia].
    eexists. split; [done|].
    rewrite bool_decide_eq_false_2 by (by intros (_ & _ & ?)).
    cbn [flat_map]. unfold fila. by rewrite !app_nil_r.
  - assert (length (take 16 w) = 16%nat) as Hl1 by (rewrite length_take; lia).
    assert (length (drop 16 w) = (length w - 16)%nat) as Hl2
      by apply length_drop.
    assert (drop 16 w ≠ []) as Hw2
      by (intros Hnil; rewrite Hnil in Hl2; simpl in Hl2; lia).
    set (w1 := take 16 w) in *. set (w2 := drop 16 w) in *.
    replace (celdas total (pre ++ w) (seqZ (16 * q) (Z.of_nat (length w))))
      with (celdas total (pre ++ w1 ++ w2)
              (seqZ (16 * q) (16 + Z.of_nat (length w2))))
      by (unfold w1, w2 in *; rewrite take_drop; do 2 f_equal; lia).
    rewrite seqZ_app by lia. rewrite celdas_app.
    pose proof (celdas_trozo total (pre ++ w1 ++ w2) w1 pre w2 q 0) as Hc.
    rewrite !Z.add_0_r, Hl1 in Hc. change (Z.of_nat 16) with 16 in Hc.
    assert (length (pre ++ w) = length (pre ++ w1 ++ w2)) as Hlw
      by (by unfold w1, w2; rewrite take_drop).
    rewrite Hc; [|done|by rewrite <- Hlw|done|done|lia|done|lia].
    rewrite bool_decide_eq_true_2
      by (split_and!; [by intros Hnil; rewrite Hnil in Hl1|lia|done]).
    destruct (IH w2 (pre ++ w1) (q + 1)) as (r2 & Hr2 & Hfin);
      [lia|done|lia|rewrite length_app, Hpre, Hl1; lia
       |by rewrite <- app_assoc, <- Hlw|done|].
    replace (16 * (q + 1)) with (16 * q + 16) in Hr2 by lia.
    rewrite <- app_assoc in Hr2. rewrite Hr2.
    eexists. split; [done|].
    cbn [flat_map]. rewrite <- Hfin. unfold fila. by rewrite <- !app_assoc.
Qed.

Lemma barra_filas vista :
  vista ≠ [] → Z.of_nat (length vista) ≤ Int.max_int →
  barra (Z.of_nat (length vista)) vista = Some (flat_map fila (trozos 16 vista)).
Proof.
  intros Hv Hmax. unfold barra, trozos.
  destruct (barra_trozos_aux (Z.of_nat (length vista)) (length vista) vista [] 0)
    as (r & Hr & Hfin); [done..|lia|].
  cbn [app] in Hr. change (16 * 0) with 0 in Hr.
  rewrite Hr. by rewrite Hfin.
Qed.

Lemma trozos_aux_concat {A} fuel n (l : list A) :
  (0 < n)%nat → (length l ≤ fuel)%nat → concat (trozos_aux fuel n l) = l.
Proof.
  intros Hn. revert l. induction fuel as [|fuel IH]; intros l Hl.
  - destruct l; [done|simpl in Hl; lia].
  - destruct l as [|x l']; [done|]. cbn [trozos_aux concat].
    rewrite IH; [apply take_drop|].
    rewrite length_drop. simpl in *. lia.
Qed.

Lemma trozos_aux_acotados {A} fuel n (l : list A) :
  (0 < n)%nat → Forall (λ r, (0 < length r ≤ n)%nat) (trozos_aux fuel n l).
Proof.
  intros Hn. revert l. induction fuel as [|fuel IH]; intros l; [constructor|].
  destruct l as [|x l]; [constructor|]. cbn [trozos_aux].
  constructor; [|apply IH].
  rewrite length_take. simpl. lia.
Qed.

Lemma trozos_aux_completos {A} fuel n (l : list A) antes r despues :
  trozos_aux fuel n l = antes ++ r :: despues → despues ≠ [] → length r = n.
Proof.
  revert l antes. induction fuel as [|fuel IH]; intros l antes Heq Hd.
  - by destruct antes.
  - destruct l as [|x l']; [by destruct antes|]. cbn [trozos_aux] in Heq.
    destruct antes as [|a antes]; injection Heq as Hr Hresto.
    + subst r. rewrite length_take.
      destruct (drop n (x :: l')) eqn:Edrop.
      * rewrite trozos_aux_nil in Hresto. by subst despues.
      * assert (length (drop n (x :: l')) ≠ 0)%nat as Hne by (by rewrite Edrop).
        rewrite length_drop in Hne. simpl in *. lia.
    + by eapply IH.
Qed.

(** X15: in every reachable state mostrar is defined and writes the header
    with the capacity in decimal followed by the strip in lines: the strip
    is cut into pieces of sixteen units, the last piece possibly shorter,
    and each piece is printed with a bar before every character and a bar
    and a line break at its end. *)
Theorem X15_display_lines (m : Memoria) :
  alcanzable m →
  ∃ vista,
    vista_de m = Some vista
    ∧ mostrar m
      = Some (cabecera (total_memoria m) ++ flat_map fila (trozos 16 vista))
    ∧ concat (trozos 16 vista) = vista
    ∧ Forall (λ r, (0 < length r ≤ 16)%nat) (trozos 16 vista)
    ∧ ∀ antes r despues, trozos 16 vista = antes ++ r :: despues →
        despues ≠ [] → length r = 16%nat.
Proof.
  intros HI%alcanzable_Inv. exists (pintado (bloques m)).
  pose proof (vista_de_Inv m HI) as Hv.
  pose proof HI as ([? ?] & Hc & _).
  assert (length (pintado (bloques m)) = Z.to_nat (total_memoria m)) as Hlen.
  { rewrite pintado_length by (by eapply cadena_positiva).
    by rewrite (cadena_suma _ _ _ Hc), Z.add_0_l. }
  split_and!.
  - exact Hv.
  - unfold mostrar. rewrite Hv.
    replace (total_memoria m) with (Z.of_nat (length (pintado (bloques m))))
      at 1 by lia.
    rewrite barra_filas; [done| |lia].
    intros Hnil. rewrite Hnil in Hlen. simpl in Hlen. lia.
  - apply trozos_aux_concat; lia.
  - apply trozos_aux_acotados. lia.
  - intros antes r despues. apply trozos_aux_completos.
Qed.

Lemma X15_display_lines_witness :
  ∃ vista,
    vista_de mem_AB = Some vista
    ∧ mostrar mem_AB
      = Some (cabecera (total_memoria mem_AB) ++ flat_map fila (trozos 16 vista))
    ∧ concat (trozos 16 vista) = vista
    ∧ Forall (λ r, (0 < length r ≤ 16)%nat) (trozos 16 vista)
    ∧ ∀ antes r despues, trozos 16 vista = antes ++ r :: despues →
        despues ≠ [] → length r = 16%nat.
Proof. exact (X15_display_lines mem_AB mem_AB_alcanzable). Defined.

(** A display as it is printed: capacity 20, two processes. *)
Example mostrar_ejemplo :
  String.string_of_list_ascii <$> mostrar (ejecutar_todas (Memoria_new 20)
                                             [OpCargar "Ana" 3; OpCargar "Bo" 14])
  = Some (String.string_of_list_ascii
            (salto :: String.list_ascii_of_string
                        "Estado de la memoria (barra de 20 MB):"
             ++ salto :: String.list_ascii_of_string
                           "|A|A|A|B|B|B|B|B|B|B|B|B|B|B|B|B|"
             ++ salto :: String.list_ascii_of_string "|B|.|.|.|"
             ++ [salto])).
Proof. vm_compute. reflexivity. Qed.

(** ** Where the released space ends up *)

(** [y] spans at least the units of [x]. *)
Lemma fusionar_cubre d ult resto h x :
  0 ≤ d → h ≤ Int.max_int → cadena d (ult :: resto) h →
  x ∈ ult :: resto → es_libre x →
  ∃ y, y ∈ fusionar ult resto ∧ es_libre y
       ∧ inicio y ≤ inicio x ∧ inicio x + tamaño x ≤ inicio y + tamaño y.
Proof.
  intros Hd Hh. revert d ult x Hd.
  induction resto as [|a r IH]; intros d ult x Hd Hc Hx Hl.
  - apply list_elem_of_singleton in Hx as ->. exists ult.
    split_and!; [by left|done|lia..].
  - destruct Hc as (Hi & Hp & Hi' & Hp' & Hc).
    pose proof (cadena_le _ _ _ Hc). cbn [fusionar].
    case_bool_decide as Hm.
    + destruct Hm as [Hlu Hla].
      rewrite Int_add_id
        by (unfold Int.en_rango, Int.min_int, Int.max_int in *; lia).
      set (u' := mkBloque (nombre ult) (inicio ult) (tamaño ult + tamaño a)).
      assert (cadena d (u' :: r) h) as Hc'.
      { simpl. split_and!; [done|lia|]. by rewrite Z.add_assoc. }
      assert (∃ x', x' ∈ u' :: r ∧ es_libre x' ∧ inicio x' ≤ inicio x
                    ∧ inicio x + tamaño x ≤ inicio x' + tamaño x')
        as (x' & Hx' & Hl' & ? & ?).
      { apply elem_of_cons in Hx as [->|Hx]; [|apply elem_of_cons in Hx as [->|Hx]].
        - exists u'. split_and!; [by left|done|simpl; lia..].
        - exists u'. split_and!; [by left|done|simpl; lia..].
        - exists x. split_and!; [by right|done|lia..]. }
      destruct (IH d u' x' Hd Hc' Hx' Hl') as (y & Hy & Hly & ? & ?).
      exists y. split_and!; [done..|lia|lia].
    + apply elem_of_cons in Hx as [->|Hx].
      * exists ult. split_and!; [by left|done|lia..].
      * destruct (IH (d + tamaño ult) a x) as (y & Hy & Hly & ? & ?);
          [lia|by simpl|done..|].
        exists y. split_and!; [by right|done..].
Qed.

(** X16: in every reachable state, after a successful liberarProceso the
    units of the released block lie inside one free block of the new list,
    and so do the units of every block that was free before: a release
    never splits or loses free space. *)
Theorem X16_release_covers_freed_range (m : Memoria) (nom : string) :
  alcanzable m → (liberarProceso nom m).2 = Liberado →
  ∃ pre b post,
    bloques m = pre ++ b :: post
    ∧ (∀ x, x ∈ pre → nombre x ≠ nom) ∧ nombre b = nom
    ∧ ∀ x, x = b ∨ (x ∈ bloques m ∧ es_libre x) →
        ∃ y, y ∈ bloques (liberarProceso nom m).1 ∧ es_libre y
             ∧ inicio y ≤ inicio x
             ∧ inicio x + tamaño x ≤ inicio y + tamaño y.
Proof.
  intros HI%alcanzable_Inv Hok.
  destruct (liberar_casos nom m)
    as [[Heq _]|[(Heq & _)|(pre & b & post & Hn & Hbs & Hpre & Hb)]];
    try (rewrite Heq in Hok; discriminate Hok).
  exists pre, b, post. split_and!; [done|by apply Forall_forall|done|].
  rewrite (liberar_encontrado nom m pre b post) by done. cbn [fst bloques].
  destruct (Inv_bloque_en_rango m pre b post HI Hbs)
    as (k & Hck & ? & Hin & ? & Hcp & ? & ?).
  set (F := mkBloque LIBRE_BLOCK_NAME (inicio b) (tamaño b)).
  assert (cadena 0 (pre ++ F :: post) (total_memoria m)) as Hc.
  { apply cadena_app. exists k. by simpl. }
  assert (∀ x, x = b ∨ (x ∈ bloques m ∧ es_libre x) →
            ∃ x', x' ∈ pre ++ F :: post ∧ es_libre x'
                  ∧ inicio x' = inicio x ∧ tamaño x' = tamaño x) as Hmarc.
  { intros x [->|[Hx Hl]].
    - exists F. split_and!; [|done..]. apply elem_of_app. right. by left.
    - rewrite Hbs in Hx.
      apply elem_of_app in Hx as [Hx|[->|Hx]%elem_of_cons].
      + exists x. split_and!; [|done..]. apply elem_of_app. by left.
      + unfold es_libre in Hl. congruence.
      + exists x. split_and!; [|done..]. apply elem_of_app. right. by right. }
  intros x Hx. destruct (Hmarc x Hx) as (x' & Hx' & Hl' & Hix & Htx).
  remember (pre ++ F :: post) as marcados eqn:E.
  destruct marcados as [|b0 resto]; [by destruct pre|].
  rewrite coalescer_fusionar.
  destruct (fusionar_cubre 0 b0 resto (total_memoria m) x') as (y & Hy & Hly & ? & ?);
    [lia|done..|].
  exists y. split_and!; [done..|lia|lia].
Qed.

Lemma X16_release_covers_freed_range_witness :
  ∃ pre b post,
    bloques mem_ejemplo = pre ++ b :: post
    ∧ (∀ x, x ∈ pre → nombre x ≠ "B") ∧ nombre b = "B"
    ∧ ∀ x, x = b ∨ (x ∈ bloques mem_ejemplo ∧ es_libre x) →
        ∃ y, y ∈ bloques (liberarProceso "B" mem_ejemplo).1 ∧ es_libre y
             ∧ inicio y ≤ inicio x
             ∧ inicio x + tamaño x ≤ inicio y + tamaño y.
Proof.
  apply (X16_release_covers_freed_range mem_ejemplo "B").
  - apply mem_ejemplo_alcanzable.
  - reflexivity.
Defined.

(** X17: in every reachable state, right after the liberarProceso of an
    owner, a request that is not longer than the block that owner's first
    block had, for any owner other than the free sentinel, is loaded. *)
Theorem X17_released_space_is_reusable
    (m : Memoria) (nom nom' : string) (tam : Z) (pre post : list Bloque)
    (b : Bloque) :
  alcanzable m → nom ≠ LIBRE_BLOCK_NAME →
  bloques m = pre ++ b :: post →
  (∀ x, x ∈ pre → nombre x ≠ nom) → nombre b = nom →
  0 < tam ≤ tamaño b → nom' ≠ LIBRE_BLOCK_NAME →
  (liberarProceso nom m).2 = Liberado
  ∧ (cargarProceso nom' tam (liberarProceso nom m).1).2 = Cargado.
Proof.
  intros HI%alcanzable_Inv Hn Hbs Hpre%Forall_forall Hb [Htam Hle] Hnom'.
  rewrite (liberar_encontrado nom m pre b post) by done.
  cbn [fst snd]. split; [done|].
  destruct (Inv_bloque_en_rango m pre b post HI Hbs)
    as (k & Hck & ? & Hin & ? & Hcp & ? & ?).
  set (F := mkBloque LIBRE_BLOCK_NAME (inicio b) (tamaño b)).
  assert (cadena 0 (pre ++ F :: post) (total_memoria m)) as Hc.
  { apply cadena_app. exists k. by simpl. }
  assert (F ∈ pre ++ F :: post) as HF by (apply elem_of_app; right; by left).
  remember (pre ++ F :: post) as marcados eqn:E.
  destruct marcados as [|b0 resto]; [by destruct pre|].
  rewrite coalescer_fusionar.
  destruct (fusionar_cubre 0 b0 resto (total_memoria m) F)
    as (y & Hy & Hly & ? & ?); [lia|done..|].
  apply (cargar_cargado_si nom' tam _ y); [done..|simpl in *; lia].
Qed.

Lemma X17_released_space_is_reusable_witness :
  (liberarProceso "B" mem_AB).2 = Liberado
  ∧ (cargarProceso "C" 20 (liberarProceso "B" mem_AB).1).2 = Cargado.
Proof.
  apply (X17_released_space_is_reusable mem_AB "B" "C" 20
           [mkBloque "A" 0 10] [mkBloque "Libre" 30 34] (mkBloque "B" 10 20)).
  - apply mem_AB_alcanzable.
  - discriminate.
  - reflexivity.
  - intros x Hx. apply list_elem_of_singleton in Hx as ->. discriminate.
  - reflexivity.
  - simpl. lia.
  - discriminate.
Defined.

(** * The release in full *)

(** ** What liberarProceso stores when it finds the owner *)

Lemma liberar_ocupados nom m pre b post :
  nom ≠ LIBRE_BLOCK_NAME →
  bloques m = pre ++ b :: post → Forall (λ x, nombre x ≠ nom) pre →
  nombre b = nom →
  ocupados (bloques m) = ocupados pre ++ b :: ocupados post
  ∧ ocupados (bloques (liberarProceso nom m).1) = ocupados pre ++ ocupados post.
Proof.
  intros Hn Hbs Hpre Hb. split.
  - rewrite Hbs. apply ocupados_medio_ocupado. unfold es_libre. congruence.
  - rewrite (liberar_encontrado nom m pre b post) by done. cbn [fst bloques].
    rewrite coalescer_ocupados. by apply ocupados_medio_libre.
Qed.

Lemma liberar_TotalFree nom m pre b post :
  Inv m → nom ≠ LIBRE_BLOCK_NAME →
  bloques m = pre ++ b :: post → Forall (λ x, nombre x ≠ nom) pre →
  nombre b = nom →
  TotalFree (liberarProceso nom m).1 = TotalFree m + tamaño b.
Proof.
  intros HI Hn Hbs Hpre Hb.
  destruct (liberar_ocupados nom m pre b post) as [H1 H2]; [done..|].
  rewrite (Inv_TotalFree _ (liberar_Inv nom m HI)), (Inv_TotalFree _ HI).
  rewrite liberar_total, H1, H2, !suma_app. simpl. lia.
Qed.

Lemma liberar_cubre nom m pre b post x :
  Inv m → nom ≠ LIBRE_BLOCK_NAME →
  bloques m = pre ++ b :: post → Forall (λ x, nombre x ≠ nom) pre →
  nombre b = nom →
  x = b ∨ (x ∈ bloques m ∧ es_libre x) →
  ∃ y, y ∈ bloques (liberarProceso nom m).1 ∧ es_libre y
       ∧ inicio y ≤ inicio x ∧ inicio x + tamaño x ≤ inicio y + tamaño y.
Proof.
  intros HI Hn Hbs Hpre Hb Hx.
  rewrite (liberar_encontrado nom m pre b post) by done. cbn [fst bloques].
  destruct (Inv_bloque_en_rango m pre b post HI Hbs)
    as (k & Hck & ? & Hin & ? & Hcp & ? & ?).
  set (F := mkBloque LIBRE_BLOCK_NAME (inicio b) (tamaño b)).
  assert (cadena 0 (pre ++ F :: post) (total_memoria m)) as Hc.
  { apply cadena_app. exists k. by simpl. }
  assert (∃ x', x' ∈ pre ++ F :: post ∧ es_libre x'
                ∧ inicio x' = inicio x ∧ tamaño x' = tamaño x)
    as (x' & Hx' & Hl' & Hix & Htx).
  { destruct Hx as [->|[Hx Hl]].
    - exists F. split_and!; [|done..]. apply elem_of_app. right. by left.
    - rewrite Hbs in Hx.
      apply elem_of_app in Hx as [Hx|[->|Hx]%elem_of_cons].
      + exists x. split_and!; [|done..]. apply elem_of_app. by left.
      + unfold es_libre in Hl. congruence.
      + exists x. split_and!; [|done..]. apply elem_of_app. right. by right. }
  remember (pre ++ F :: post) as marcados eqn:E.
  destruct marcados as [|b0 resto]; [by destruct pre|].
  rewrite coalescer_fusionar.
  destruct (fusionar_cubre 0 b0 resto (total_memoria m) x')
    as (y & Hy & Hly & ? & ?); [lia|done..|].
  exists y. split_and!; [done..|lia|lia].
Qed.

(** ** C4: liberarProceso *)

(** C4: liberarProceso rejects the free sentinel and reports an unknown
    owner, returning the memory unchanged in both cases.  When a block
    carries the owner, the first such block is marked free and the
    coalescing pass runs on the result: in the list that is stored no two
    adjacent blocks are free, and the occupied blocks are the ones the
    memory had, each as it was and in the same order, without the released
    one.  In a reachable state the stored list still tiles the capacity
    with blocks of positive length, the total free space has grown by the
    length of the released block, and the units of the released block, like
    those of every block that was free before, lie inside one free block. *)
Theorem C4_release_outcomes (m : Memoria) (nom : string) :
  (nom = LIBRE_BLOCK_NAME → liberarProceso nom m = (m, NoSePuedeLiberarLibre))
  ∧ (nom ≠ LIBRE_BLOCK_NAME → (∀ b, b ∈ bloques m → nombre b ≠ nom) →
     liberarProceso nom m = (m, NoEncontrado))
  ∧ (nom ≠ LIBRE_BLOCK_NAME → (∃ b, b ∈ bloques m ∧ nombre b = nom) →
     ∃ pre b post,
       bloques m = pre ++ b :: post
       ∧ (∀ x, x ∈ pre → nombre x ≠ nom) ∧ nombre b = nom
       ∧ liberarProceso nom m =
           ({| bloques := compactarEspaciosLibresAdyacentes
                 (pre ++ mkBloque LIBRE_BLOCK_NAME (inicio b) (tamaño b) :: post);
               total_memoria := total_memoria m |}, Liberado)
       ∧ inv_sin_libres_adyacentes (bloques (liberarProceso nom m).1)
       ∧ ocupados (bloques m) = ocupados pre ++ b :: ocupados post
       ∧ ocupados (bloques (liberarProceso nom m).1)
         = ocupados pre ++ ocupados post
       ∧ (alcanzable m →
          inv_contiguo (bloques (liberarProceso nom m).1)
          ∧ inv_extremos (bloques (liberarProceso nom m).1) (total_memoria m)
          ∧ inv_longitudes_positivas (bloques (liberarProceso nom m).1)
          ∧ TotalFree (liberarProceso nom m).1 = TotalFree m + tamaño b
          ∧ ∀ x, x = b ∨ (x ∈ bloques m ∧ es_libre x) →
              ∃ y, y ∈ bloques (liberarProceso nom m).1 ∧ es_libre y
                   ∧ inicio y ≤ inicio x
                   ∧ inicio x + tamaño x ≤ inicio y + tamaño y)).
Proof.
  split_and!.
  - intros ?. unfold liberarProceso. by rewrite bool_decide_eq_true_2.
  - intros Hn Hno.
    destruct (liberar_casos nom m)
      as [[_ ?]|[(? & _)|(pre & b & post & _ & Hbs & _ & Hb)]]; [done..|].
    exfalso. apply (Hno b); [|done]. rewrite Hbs, elem_of_app. right. by left.
  - intros Hn (b0 & Hin & Hb0).
    destruct (liberar_casos nom m)
      as [[_ ?]|[(_ & _ & Hno)|(pre & b & post & _ & Hbs & Hpre & Hb)]]; [done| |].
    { rewrite Forall_forall in Hno. by destruct (Hno b0 Hin). }
    exists pre, b, post.
    pose proof (liberar_encontrado nom m pre b post Hn Hbs Hpre Hb) as Heq.
    destruct (liberar_ocupados nom m pre b post Hn Hbs Hpre Hb) as [Ho1 Ho2].
    split_and!; try done.
    + by apply Forall_forall.
    + rewrite Heq. simpl. apply sin_adyacentes_inv, coalescer_sin_adyacentes.
    + intros HI%alcanzable_Inv.
      destruct (Inv_spec _ (liberar_Inv nom m HI)) as (H1 & H2 & _ & H5).
      rewrite liberar_total in H2.
      split_and!; [done..|by apply (liberar_TotalFree nom m pre b post)|].
      intros x Hx. by apply (liberar_cubre nom m pre b post x).
Qed.

Lemma C4_release_outcomes_witness :
  liberarProceso "Libre" mem_AB = (mem_AB, NoSePuedeLiberarLibre)
  ∧ liberarProceso "Z" mem_AB = (mem_AB, NoEncontrado)
  ∧ inv_sin_libres_adyacentes (bloques (liberarProceso "B" mem_AB).1)
  ∧ inv_contiguo (bloques (liberarProceso "B" mem_AB).1)
  ∧ ∃ y, y ∈ bloques (liberarProceso "B" mem_AB).1 ∧ es_libre y.
Proof.
  destruct (C4_release_outcomes mem_AB "Libre") as (H1 & _).
  destruct (C4_release_outcomes mem_AB "Z") as (_ & H2 & _).
  destruct (C4_release_outcomes mem_AB "B") as (_ & _ & H3).
  assert (∃ b, b ∈ bloques mem_AB ∧ nombre b = "B") as Hhay.
  { exists (mkBloque "B" 10 20). split; [|reflexivity].
    change (bloques mem_AB)
      with [mkBloque "A" 0 10; mkBloque "B" 10 20; mkBloque "Libre" 30 34].
    right. left. }
  destruct H3 as (pre & b & post & _ & _ & _ & _ & Hs & _ & _ & Halc);
    [discriminate|exact Hhay|].
  destruct (Halc mem_AB_alcanzable) as (Hc & _ & _ & _ & Hcub).
  split_and!.
  - by apply H1.
  - apply H2; [discriminate|]. intros x Hx.
    change (bloques mem_AB)
      with [mkBloque "A" 0 10; mkBloque "B" 10 20; mkBloque "Libre" 30 34] in Hx.
    repeat (apply elem_of_cons in Hx as [->|Hx]; [discriminate|]).
    by apply elem_of_nil in Hx.
  - exact Hs.
  - exact Hc.
  - destruct (Hcub b (or_introl eq_refl)) as (y & Hy & Hl & _). by exists y.
Defined.

Example liberar_ejemplo :
  bloques (liberarProceso "B" mem_AB).1
  = [mkBloque "A" 0 10; mkBloque "Libre" 10 54].
Proof. vm_compute. reflexivity. Qed.

(** ** C10: loading an owner that already labels a block *)

Lemma cargar_ocupados nom tam m :
  (cargarProceso nom tam m).2 = Cargado →
  ∃ antes despues desde,
    ocupados (bloques m) = antes ++ despues
    ∧ ocupados (bloques (cargarProceso nom tam m).1)
      = antes ++ mkBloque nom desde tam :: despues.
Proof.
  intros Hok.
  destruct (cargar_casos nom tam m)
    as [[Heq _]|[[Heq _]|[[Heq _]|(pre & b & post & Ht & Hn & Hbs & Hpre & Hl & Hle)]]];
    try (rewrite Heq in Hok; discriminate Hok).
  exists (ocupados pre), (ocupados post), (inicio b).
  rewrite Hbs, ocupados_medio_libre by done. split; [done|].
  destruct (decide (tamaño b = tam)).
  - rewrite (cargar_exacto nom tam m pre b post) by done. cbn [fst bloques].
    by rewrite ocupados_medio_ocupado.
  - rewrite (cargar_parcial nom tam m pre b post) by (done || lia).
    cbn [fst bloques]. rewrite ocupados_medio_ocupado by done.
    by rewrite ocupados_cons_libre.
Qed.

(** C10: cargarProceso does not look for the owner among the blocks.  In a
    reachable state where the owner already labels a block and some free
    block can hold the request, the load succeeds: the occupied blocks gain
    one block with that owner and the requested length, so the list then
    has one more block with that owner.  The liberarProceso that follows
    succeeds and frees only the first of them, which has the lowest offset:
    that block leaves the occupied blocks, its units lie inside a free
    block of the new list, and the total free space grows by its length;
    the other occupied blocks, those with the same owner among them, stay
    in the list as they were. *)
Theorem C10_duplicate_owner_allocation (m : Memoria) (nom : string) (tam : Z) :
  alcanzable m → 0 < tam → nom ≠ LIBRE_BLOCK_NAME →
  (∃ b, b ∈ bloques m ∧ nombre b = nom) →
  (∃ f, f ∈ bloques m ∧ es_libre f ∧ tam ≤ tamaño f) →
  let m1 := (cargarProceso nom tam m).1 in
  let m2 := (liberarProceso nom m1).1 in
  (cargarProceso nom tam m).2 = Cargado
  ∧ length (con_nombre nom (bloques m1)) = S (length (con_nombre nom (bloques m)))
  ∧ (∃ antes despues desde,
       ocupados (bloques m) = antes ++ despues
       ∧ ocupados (bloques m1) = antes ++ mkBloque nom desde tam :: despues)
  ∧ (liberarProceso nom m1).2 = Liberado
  ∧ ∃ primero otros,
      con_nombre nom (bloques m1) = primero :: otros
      ∧ otros ≠ []
      ∧ Forall (λ o, inicio primero < inicio o) otros
      ∧ con_nombre nom (bloques m2) = otros
      ∧ (∃ o1 o2,
           ocupados (bloques m1) = o1 ++ primero :: o2
           ∧ (∀ x, x ∈ o1 → nombre x ≠ nom)
           ∧ ocupados (bloques m2) = o1 ++ o2)
      ∧ (∃ y, y ∈ bloques m2 ∧ es_libre y
              ∧ inicio y ≤ inicio primero
              ∧ inicio primero + tamaño primero ≤ inicio y + tamaño y)
      ∧ TotalFree m2 = TotalFree m1 + tamaño primero.
Proof.
  intros Halc Htam Hnom (b0 & Hb0 & Hb0n) (f & Hf & Hfl & Hft) m1 m2.
  pose proof (alcanzable_Inv m Halc) as HI.
  pose proof (cargar_Inv nom tam m HI) as HI1. fold m1 in HI1.
  (* the load *)
  assert ((cargarProceso nom tam m).2 = Cargado) as Hok
    by (by apply (cargar_cargado_si nom tam m f)).
  assert (length (con_nombre nom (bloques m1))
          = S (length (con_nombre nom (bloques m)))) as Hlen.
  { subst m1 m2.
    destruct (cargar_casos nom tam m)
      as [[Heq _]|[[Heq _]|[[Heq _]|
          (pre & b & post & _ & _ & Hbs & Hpre & Hl & Hle)]]];
      try (rewrite Heq in Hok; discriminate Hok).
    assert (nombre b ≠ nom) as Hbn by (unfold es_libre in Hl; congruence).
    rewrite Hbs, con_nombre_app, con_nombre_cons_no, length_app by done.
    destruct (decide (tamaño b = tam)) as [Heq|Hne].
    - rewrite (cargar_exacto nom tam m pre b post) by done.
      cbn [fst snd bloques].
      rewrite con_nombre_app, con_nombre_cons_si, length_app by done.
      simpl. lia.
    - rewrite (cargar_parcial nom tam m pre b post) by (done || lia).
      cbn [fst snd bloques].
      rewrite con_nombre_app, con_nombre_cons_si, length_app by done.
      rewrite con_nombre_cons_no by (simpl; congruence). simpl. lia. }
  split; [exact Hok|]. split; [exact Hlen|].
  split; [by apply cargar_ocupados|].
  (* the release *)
  assert (con_nombre nom (bloques m) ≠ []) as Hhay.
  { intros Hnil. assert (b0 ∈ con_nombre nom (bloques m)) as Hin
      by (by apply list_elem_of_filter).
    rewrite Hnil in Hin. by apply elem_of_nil in Hin. }
  destruct (liberar_casos nom m1)
    as [[_ ?]|[(_ & _ & Hno)|(pre & b & post & _ & Hbs & Hpre & Hb)]]; [done| |].
  { apply con_nombre_ninguno in Hno. rewrite Hno in Hlen. discriminate Hlen. }
  destruct (liberar_ocupados nom m1 pre b post Hnom Hbs Hpre Hb) as [Ho1 Ho2].
  pose proof (liberar_TotalFree nom m1 pre b post HI1 Hnom Hbs Hpre Hb) as Htf.
  pose proof (liberar_cubre nom m1 pre b post b HI1 Hnom Hbs Hpre Hb
                (or_introl eq_refl)) as Hcub.
  fold m2 in Ho2, Htf, Hcub.
  assert (con_nombre nom (bloques m2) = con_nombre nom post) as Hcn2.
  { subst m2. rewrite (liberar_encontrado nom m1 pre b post) by done.
    cbn [fst bloques]. rewrite con_nombre_coalescer by done.
    rewrite con_nombre_app, con_nombre_ninguno by done.
    by rewrite con_nombre_cons_no. }
  split.
  { subst m2. by rewrite (liberar_encontrado nom m1 pre b post). }
  exists b, (con_nombre nom post).
  assert (con_nombre nom (bloques m1) = b :: con_nombre nom post) as Hcn.
  { rewrite Hbs, con_nombre_app, con_nombre_ninguno by done.
    by rewrite con_nombre_cons_si. }
  split_and!.
  - exact Hcn.
  - intros Hnil. rewrite Hcn, Hnil in Hlen. simpl in Hlen.
    destruct (con_nombre nom (bloques m)); [done|discriminate Hlen].
  - destruct (Inv_bloque_en_rango m1 pre b post HI1 Hbs)
      as (k & _ & _ & Hin & Hp & Hc & _ & _).
    apply cadena_inicios in Hc. unfold con_nombre.
    apply Forall_forall. intros o [_ Ho]%list_elem_of_filter.
    rewrite Forall_forall in Hc. specialize (Hc o Ho). lia.
  - exact Hcn2.
  - exists (ocupados pre), (ocupados post). split_and!; [done| |done].
    intros x [_ Hx]%list_elem_of_filter. rewrite Forall_forall in Hpre. auto.
  - exact Hcub.
  - exact Htf.
Qed.

Lemma C10_duplicate_owner_allocation_witness :
  (cargarProceso "A" 5 mem_A).2 = Cargado
  ∧ length (con_nombre "A" (bloques (cargarProceso "A" 5 mem_A).1))
    = S (length (con_nombre "A" (bloques mem_A)))
  ∧ (∃ antes despues desde,
       ocupados (bloques mem_A) = antes ++ despues
       ∧ ocupados (bloques (cargarProceso "A" 5 mem_A).1)
         = antes ++ mkBloque "A" desde 5 :: despues)
  ∧ (liberarProceso "A" (cargarProceso "A" 5 mem_A).1).2 = Liberado
  ∧ ∃ primero otros,
      con_nombre "A" (bloques (cargarProceso "A" 5 mem_A).1) = primero :: otros
      ∧ otros ≠ []
      ∧ Forall (λ o, inicio primero < inicio o) otros
      ∧ con_nombre "A"
          (bloques (liberarProceso "A" (cargarProceso "A" 5 mem_A).1).1)
        = otros
      ∧ (∃ o1 o2,
           ocupados (bloques (cargarProceso "A" 5 mem_A).1) = o1 ++ primero :: o2
           ∧ (∀ x, x ∈ o1 → nombre x ≠ "A")
           ∧ ocupados
               (bloques (liberarProceso "A" (cargarProceso "A" 5 mem_A).1).1)
             = o1 ++ o2)
      ∧ (∃ y, y ∈ bloques (liberarProceso "A" (cargarProceso "A" 5 mem_A).1).1
              ∧ es_libre y
              ∧ inicio y ≤ inicio primero
              ∧ inicio primero + tamaño primero ≤ inicio y + tamaño y)
      ∧ TotalFree (liberarProceso "A" (cargarProceso "A" 5 mem_A).1).1
        = TotalFree (cargarProceso "A" 5 mem_A).1 + tamaño primero.
Proof.
  apply (C10_duplicate_owner_allocation mem_A "A" 5).
  - apply mem_A_alcanzable.
  - lia.
  - discriminate.
  - exists (mkBloque "A" 0 10). split; [|reflexivity]. vm_compute. left.
  - exists (mkBloque "Libre" 10 54). split_and!.
    + vm_compute. right. left.
    + reflexivity.
    + simpl. lia.
Defined.
